(** * pools: an object pool (pool.h) and its free list

    A shallow embedding of [Pool<T, GrowthFactor, MaxBlockSize>] and
    [Multipool<Ts...>] from [src/pool.h], followed by the properties of the
    block-growth and free-list algorithm.

    - [size_t] values are integers in [Z]; the one multiplication of the
      code, [GrowthFactor * m_blockSize], is reduced modulo [2^64].
    - A block ([std::unique_ptr<Item[]>]) is the list of its items, and the
      pool owns the list of its blocks, as the vector of unique pointers does.
    - An [Item*] or [T*] is [None] for [nullptr] and otherwise the pair of the
      block's position in [m_blocks] and the item's position in the block.
    - [union Item] holds either the link [m_next] or the storage of a live
      object; reading the member that is not there is undefined behaviour.
    - Member functions are computations in a state-and-exception monad over
      the pool: an exception leaves the state as it was when it was thrown. *)

From stdpp Require Import base option numbers list sorting.

Local Open Scope Z_scope.

(** ** [size_t] *)

Module SizeT.
Definition modulus : Z := 2 ^ 64.
Definition wrap (z : Z) : Z := z mod modulus.
Definition mul (a b : Z) : Z := wrap (a * b).
End SizeT.

(** ** Outcomes of a call *)

Inductive exn : Set :=
| bad_alloc            (* the upstream allocator could not provide a block *)
| ctor_exception       (* the constructor of the pooled type threw *)
| assertion_failure    (* an [assert] of the code failed *)
| undefined_behaviour. (* null or dangling dereference, wrong union member *)

Inductive outcome (A : Type) : Type :=
| Ret (a : A)
| Throw (e : exn).
Arguments Ret {A} a.
Arguments Throw {A} e.

(** ** Addresses and items *)

Definition addr : Type := nat * nat.
Definition ptr : Type := option addr.

Inductive Item (T : Type) : Type :=
| Link (m_next : ptr)
| Storage (m_storage : T).
Arguments Link {T} m_next.
Arguments Storage {T} m_storage.

Record Pool (T : Type) : Type := mkPool {
  m_blocks : list (list (Item T));
  m_blockSize : Z;
  m_nextFree : ptr
}.
Arguments mkPool {T} m_blocks m_blockSize m_nextFree.
Arguments m_blocks {T} p.
Arguments m_blockSize {T} p.
Arguments m_nextFree {T} p.

Section PoolModel.
Context {T : Type}.
Variables GrowthFactor MaxBlockSize : Z.

Abbreviation block := (list (Item T)).

(** *** Memory of the blocks *)

(** [&block[i]] read through the block list. *)
Definition cell (bl : list block) (a : addr) : option (Item T) :=
  match bl !! a.1 with
  | Some blk => blk !! a.2
  | None => None
  end.

(** Assignment to an item of a block. *)
Definition store (bl : list block) (a : addr) (it : Item T) : list block :=
  match bl !! a.1 with
  | Some blk => <[a.1 := <[a.2 := it]> blk]> bl
  | None => bl
  end.

(** *** The monad of member functions *)

Definition PoolM (A : Type) : Type := Pool T → outcome A * Pool T.

Definition ret {A} (a : A) : PoolM A := λ p, (Ret a, p).
Definition throw {A} (e : exn) : PoolM A := λ p, (Throw e, p).
Definition bind {A B} (m : PoolM A) (k : A → PoolM B) : PoolM B :=
  λ p, match m p with
       | (Ret a, p') => k a p'
       | (Throw e, p') => (Throw e, p')
       end.
Definition gets {A} (f : Pool T → A) : PoolM A := λ p, (Ret (f p), p).
Definition modify (f : Pool T → Pool T) : PoolM unit := λ p, (Ret tt, f p).

Notation "'let*' x ':=' m 'in' k" := (bind m (λ x, k))
  (at level 10, x name, m at level 100, k at level 200, only parsing).
Notation "m ';;' k" := (bind m (λ _, k))
  (at level 100, k at level 200, right associativity, only parsing).

Definition set_blockSize (n : Z) : PoolM unit :=
  modify (λ p, mkPool (m_blocks p) n (m_nextFree p)).
Definition set_nextFree (q : ptr) : PoolM unit :=
  modify (λ p, mkPool (m_blocks p) (m_blockSize p) q).
Definition emplace_back (blk : block) : PoolM unit :=
  modify (λ p, mkPool (m_blocks p ++ [blk]) (m_blockSize p) (m_nextFree p)).

(** [item->m_next] as an rvalue, and any other read of an item. *)
Definition read (a : addr) : PoolM (Item T) :=
  λ p, match cell (m_blocks p) a with
       | Some it => (Ret it, p)
       | None => (Throw undefined_behaviour, p)
       end.

(** A write through a pointer to an item. *)
Definition write (a : addr) (it : Item T) : PoolM unit :=
  λ p, match cell (m_blocks p) a with
       | Some _ => (Ret tt, mkPool (store (m_blocks p) a it) (m_blockSize p) (m_nextFree p))
       | None => (Throw undefined_behaviour, p)
       end.

(** *** Blocks *)

(** [std::make_unique<Item[]>(n)]: the upstream allocator either provides
    [n] items, each built by [Item() : m_next(nullptr)], or throws.
    [upstream n] tells whether a request for [n] items is satisfied. *)
Definition make_unique (upstream : Z → bool) (n : Z) : outcome block :=
  if upstream n then Ret (replicate (Z.to_nat n) (Link None))
  else Throw bad_alloc.

(** [for (size_t i = 1; i < size; ++i) blk[i-1].m_next = &blk[i];]
    for the block at position [b] of the block list. *)
Fixpoint thread_from (b : nat) (idx : list nat) (blk : block) : block :=
  match idx with
  | [] => blk
  | i :: idx' => thread_from b idx' (<[(i - 1)%nat := Link (Some (b, i))]> blk)
  end.

Definition thread (b : nat) (size : Z) (blk : block) : block :=
  thread_from b (seq 1 (Z.to_nat size - 1)) blk.

(** *** Pool::Pool(size_t size) *)

Definition Pool_new (upstream : Z → bool) (size : Z) : outcome (Pool T) :=
  if negb (0 <? size) then Throw assertion_failure
  else if negb (size <=? MaxBlockSize) then Throw assertion_failure
  else match make_unique upstream size with
       | Throw e => Throw e
       | Ret firstBlock =>
           Ret (mkPool [thread 0 size firstBlock] size (Some (0%nat, 0%nat)))
       end.

(** *** Pool::allocate

    An [Item] of the source is a union, and lines 144-145 read [m_next]
    from the head without a test: on an item that holds an object the
    source goes on with the bytes of the object as the next head, which is
    outside what C++ defines. The model keeps the two members apart and
    has [undefined_behaviour] there, and where the head is not an item of
    a block. A head on a link is what [FreeList] and [pool_inv] state, so
    under either hypothesis these branches are not taken. *)

(** The body of [if (m_nextFree == nullptr) { ... }]. *)
Definition grow (upstream : Z → bool) : PoolM unit :=
  let* bs := gets m_blockSize in
  let n := Z.min (SizeT.mul GrowthFactor bs) MaxBlockSize in
  set_blockSize n ;;
  let* b := gets (λ p, length (m_blocks p)) in
  match make_unique upstream n with
  | Throw e => throw e
  | Ret newBlock =>
      emplace_back (thread b n newBlock) ;;
      set_nextFree (Some (b, 0%nat))
  end.

Definition allocate (upstream : Z → bool) : PoolM addr :=
  let* nf := gets m_nextFree in
  (match nf with None => grow upstream | Some _ => ret tt end) ;;
  let* freeItem := gets m_nextFree in
  match freeItem with
  | None => throw undefined_behaviour
  | Some a =>
      let* it := read a in
      match it with
      | Link next => set_nextFree next ;; ret a
      | Storage _ => throw undefined_behaviour
      end
  end.

(** *** Pool::deallocate *)

Definition deallocate (a : addr) : PoolM unit :=
  let* nf := gets m_nextFree in
  write a (Link nf) ;;
  set_nextFree (Some a).

(** *** Pool::construct

    [new (allocate()) type(args...)]: the slot is taken first, then the
    constructor runs on it. [ctor] is what the constructor does with the
    arguments it was given: [Some v] builds the object [v], [None] throws.
    The placement form of [operator delete] that runs when the constructor
    throws does nothing. *)
Definition construct (upstream : Z → bool) (ctor : option T) : PoolM addr :=
  let* a := allocate upstream in
  match ctor with
  | Some v => write a (Storage v) ;; ret a
  | None => throw ctor_exception
  end.

(** *** Pool::destroy

    [p->~type()] needs a live object at [p]: lines 64-71 and 149-154 have
    no test, and given an item that is free the source links it in once
    more, which leaves a cycle in the free list. The model has
    [undefined_behaviour] there; under the hypothesis [live p a], or
    [destroys_live] for a run, this branch is not taken. *)
Definition destroy (p : ptr) : PoolM unit :=
  match p with
  | None => ret tt
  | Some a =>
      let* it := read a in
      match it with
      | Storage _ => deallocate a
      | Link _ => throw undefined_behaviour
      end
  end.

(** *** Pool::release and Pool::full *)

Definition release : PoolM unit :=
  modify (λ p, mkPool [] (m_blockSize p) None).

Definition full (p : Pool T) : bool :=
  match m_nextFree p with None => true | Some _ => false end.

(** *** The free count of Pool::print

    [while (itemPtr != nullptr) { freeCount++; itemPtr = itemPtr->m_next; }]
    with a bound on the number of iterations; [None] when the bound is
    reached or an item that is not a link is read. *)
Fixpoint freeCount_loop (fuel : nat) (bl : list block) (itemPtr : ptr)
    (freeCount : nat) : option nat :=
  match itemPtr with
  | None => Some freeCount
  | Some a =>
      match fuel with
      | O => None
      | S fuel' =>
          match cell bl a with
          | Some (Link next) => freeCount_loop fuel' bl next (S freeCount)
          | _ => None
          end
      end
  end.

Definition freeCount (fuel : nat) (p : Pool T) : option nat :=
  freeCount_loop fuel (m_blocks p) (m_nextFree p) 0%nat.

(** *** Sequences of calls *)

Fixpoint construct_all (upstream : Z → bool) (vs : list T) : PoolM (list addr) :=
  match vs with
  | [] => ret []
  | v :: vs' =>
      let* a := construct upstream (Some v) in
      let* hs := construct_all upstream vs' in
      ret (a :: hs)
  end.

Fixpoint destroy_all (hs : list addr) : PoolM unit :=
  match hs with
  | [] => ret tt
  | a :: hs' => destroy (Some a) ;; destroy_all hs'
  end.

(** A sequence of [construct] calls, each with its own upstream answer and
    constructor; the handles of the calls that returned are collected. *)
Fixpoint construct_seq (calls : list ((Z → bool) * option T)) (p : Pool T)
    : list addr * Pool T :=
  match calls with
  | [] => ([], p)
  | (upstream, ctor) :: calls' =>
      let r := construct upstream ctor p in
      let rest := construct_seq calls' r.2 in
      (match r.1 with Ret a => a :: rest.1 | Throw _ => rest.1 end, rest.2)
  end.

Inductive op : Type :=
| Construct (upstream : Z → bool) (ctor : option T)
| Destroy (p : ptr)
| Release.

(** One call on the pool; the outcome is dropped and the state kept, as a
    caller that catches the exception sees it. *)
Definition step (o : op) (p : Pool T) : Pool T :=
  match o with
  | Construct upstream ctor => (construct upstream ctor p).2
  | Destroy q => (destroy q p).2
  | Release => (release p).2
  end.

Definition run (os : list op) (p : Pool T) : Pool T :=
  foldl (λ q o, step o q) p os.

(** *** Observations used in the statements *)

(** A block as the constructor and [allocate] leave it: [n] items built by
    [Item()] and then threaded. *)
Definition fresh_block (b : nat) (n : Z) : block :=
  thread b n (replicate (Z.to_nat n) (Link None)).

(** The size [allocate] gives to the next block. *)
Definition grown_size (p : Pool T) : Z :=
  Z.min (SizeT.mul GrowthFactor (m_blockSize p)) MaxBlockSize.

Definition block_sizes (p : Pool T) : list nat := length <$> m_blocks p.

Definition total_slots (p : Pool T) : nat := sum_list (block_sizes p).

(** The sizes of the blocks obtained from the upstream allocator during
    the calls [os], in the order they were obtained. *)
Fixpoint allocated (os : list op) (p : Pool T) : list nat :=
  match os with
  | [] => []
  | o :: os' =>
      let p' := step o p in
      drop (length (m_blocks p)) (block_sizes p') ++ allocated os' p'
  end.

(** [chain bl h fl]: following [m_next] from [h] visits exactly the items
    [fl], all of them links, and ends in [nullptr]. *)
Fixpoint chain (bl : list block) (h : ptr) (fl : list addr) : Prop :=
  match fl with
  | [] => h = None
  | a :: fl' => h = Some a ∧ ∃ next, cell bl a = Some (Link next) ∧ chain bl next fl'
  end.

(** The free list of a pool: the chain from [m_nextFree], without repetition. *)
Definition FreeList (p : Pool T) (fl : list addr) : Prop :=
  chain (m_blocks p) (m_nextFree p) fl ∧ NoDup fl.

(** A live object at [a]. *)
Definition live (p : Pool T) (a : addr) : Prop :=
  ∃ v, cell (m_blocks p) a = Some (Storage v).

Definition has_free_count (p : Pool T) (n : nat) : Prop :=
  ∀ fuel, (n ≤ fuel)%nat → freeCount fuel p = Some n.

(** The state every call keeps: the block size is within its bounds and
    the free list is a chain without repetition. *)
Definition pool_inv (p : Pool T) : Prop :=
  1 ≤ m_blockSize p ≤ MaxBlockSize ∧ ∃ fl, FreeList p fl.

End PoolModel.

Arguments PoolM T A : clear implicits.
Arguments op T : clear implicits.

(** ** More observations on a pool *)

Section PoolCounts.
Context {T : Type}.
Variables GrowthFactor MaxBlockSize : Z.

(** The number of items of a block that hold an object. *)
Fixpoint count_objects (blk : list (Item T)) : nat :=
  match blk with
  | [] => 0
  | Storage _ :: blk' => S (count_objects blk')
  | Link _ :: blk' => count_objects blk'
  end.

(** The number of live objects of a pool. *)
Definition live_count (p : Pool T) : nat :=
  sum_list (count_objects <$> m_blocks p).

(** The addresses of the items of a block that hold a link, the block
    being at position [b] and its first item at index [i]. *)
Fixpoint link_slots_of (b i : nat) (blk : list (Item T)) : list addr :=
  match blk with
  | [] => []
  | Link _ :: blk' => (b, i) :: link_slots_of b (S i) blk'
  | Storage _ :: blk' => link_slots_of b (S i) blk'
  end.

(** The same over a block list whose first block is at position [b]. *)
Fixpoint link_slots_from (b : nat) (bl : list (list (Item T))) : list addr :=
  match bl with
  | [] => []
  | blk :: bl' => link_slots_of b 0 blk ++ link_slots_from (S b) bl'
  end.

Definition link_slots (p : Pool T) : list addr := link_slots_from 0 (m_blocks p).

(** No slot is lost: every item is on the free list or holds an object. *)
Definition balanced (p : Pool T) : Prop :=
  ∃ fl, FreeList p fl ∧ (length fl + live_count p = total_slots p)%nat.

(** The calls whose constructor returns: [construct] with a constructor
    that does not throw, and every other call. *)
Definition ctor_returns (o : op T) : Prop :=
  match o with
  | Construct _ ctor => is_Some ctor
  | _ => True
  end.

(** What the caller of [destroy] owes the pool, along a run: every
    [destroy] is given [nullptr] or an object that is live when the call
    is made. *)
Fixpoint destroys_live (os : list (op T)) (p : Pool T) : Prop :=
  match os with
  | [] => True
  | o :: os' =>
      match o with
      | Destroy (Some a) => live p a
      | _ => True
      end ∧
      destroys_live os' (step GrowthFactor MaxBlockSize o p)
  end.

(** The calls of a run in which the upstream allocator provides every
    block it is asked for. *)
Definition upstream_provides (o : op T) : Prop :=
  match o with
  | Construct upstream _ => ∀ n, upstream n = true
  | _ => True
  end.

End PoolCounts.

(** ** Multipool<Ts...>

    [std::tuple<Pool<Ts>...> pools], read with [std::get<Pool<T>>]: the
    member pools are addressed by their type, so the tuple is a family of
    pools over the index [I] of the types, [Ts i] being the type at [i].
    Member pools take the default template arguments of [Pool]. *)

Module Multipool.
Section MultipoolModel.
Context {I : Type} `{EqDecision I} (Ts : I → Type).

Definition GrowthFactor : Z := 2.
Definition MaxBlockSize : Z := 1024.

Definition t : Type := ∀ i : I, Pool (Ts i).

(** [std::get<Pool<T>>(pools)] as an lvalue: the tuple with the pool of
    type [i] replaced. *)
Definition set (i : I) (p : Pool (Ts i)) (mp : t) : t :=
  λ j, match decide (i = j) with
       | left e => eq_rect i (λ k, Pool (Ts k)) p j e
       | right _ => mp j
       end.

Definition get (i : I) (mp : t) : Pool (Ts i) := mp i.

(** A member function of [Pool<T>] called on [std::get<Pool<T>>(pools)]. *)
Definition on_pool {A} (i : I) (m : PoolM (Ts i) A) : t → outcome A * t :=
  λ mp, let r := m (get i mp) in (r.1, set i r.2 mp).

Definition construct (i : I) (upstream : Z → bool) (ctor : option (Ts i))
    : t → outcome addr * t :=
  on_pool i (construct GrowthFactor MaxBlockSize upstream ctor).

Definition destroy (i : I) (p : ptr) : t → outcome unit * t :=
  on_pool i (destroy p).

(** [std::apply([](auto&& ...pool){((pool.release()), ...);}, pools)] *)
Definition release_all : t → outcome unit * t :=
  λ mp, (Ret tt, λ i, (release (mp i)).2).

Definition release (i : I) : t → outcome unit * t :=
  on_pool i release.

End MultipoolModel.
End Multipool.

(** ** The test program (test_pool.cpp)

    The functions that drive the pools. [n_iterations] and the array of
    random values are parameters; [T()] builds the object [dflt]. The
    timers and the runs on the default allocator are left out. *)

Module TestPool.

Definition pool_init_block_size : Z := 8.

(** The test types [A], [B], [C], [D]. *)
Inductive ty : Set := A | B | C | D.

#[global] Instance ty_eq_dec : EqDecision ty.
Proof. solve_decision. Defined.

Section MassAlloc.
Context {T : Type}.

(** [MassAllocPool<T>()]: a pool of initial size 8, [n_iterations] objects
    constructed, then destroyed in the order they were constructed. The
    result is the pool as it is when the scope of the function ends. *)
Definition MassAllocPool (upstream : Z → bool) (n_iterations : nat) (dflt : T)
    : outcome (Pool T) :=
  match Pool_new 1024 upstream pool_init_block_size with
  | Throw e => Throw e
  | Ret pool =>
      match construct_all 2 1024 upstream (replicate n_iterations dflt) pool with
      | (Throw e, _) => Throw e
      | (Ret ptrs, pool1) =>
          match destroy_all ptrs pool1 with
          | (Throw e, _) => Throw e
          | (Ret _, pool2) => Ret pool2
          end
      end
  end.

End MassAlloc.

Section MixedAlloc.
Context (Obj : ty → Type) (dflt : ∀ t, Obj t).

(** [DataMultipool = Multipool<A, B, C, D>] *)
Abbreviation DataMultipool := (Multipool.t Obj).

(** A [base_ptr]: the pointer and, in its deleter [mp_deleter<T>], the type
    it was constructed with. *)
Definition base_ptr : Type := ty * addr.

(** The multipool and the vector [ptrs], in index order. *)
Definition mixed_state : Type := DataMultipool * list base_ptr.

(** [ptrs.push_back(makeBasePtrMP<T>())] *)
Definition push_back_new (upstream : Z → bool) (t : ty) (st : mixed_state)
    : outcome mixed_state :=
  let r := Multipool.construct Obj t upstream (Some (dflt t)) st.1 in
  match r.1 with
  | Ret a => Ret (r.2, st.2 ++ [(t, a)])
  | Throw e => Throw e
  end.

(** [mp_deleter<T>(p)], which a [base_ptr] runs when it is destroyed. *)
Definition delete_ptr (q : base_ptr) (mp : DataMultipool)
    : outcome unit * DataMultipool :=
  Multipool.destroy Obj q.1 (Some q.2) mp.

(** [ptrs.pop_back()]: the last element is destroyed; the vector must not
    be empty. *)
Definition pop_back (st : mixed_state) : outcome mixed_state :=
  match last st.2 with
  | None => Throw undefined_behaviour
  | Some q =>
      match delete_ptr q st.1 with
      | (Ret _, mp') => Ret (mp', removelast st.2)
      | (Throw e, _) => Throw e
      end
  end.

Definition and_then (r : outcome mixed_state)
    (k : mixed_state → outcome mixed_state) : outcome mixed_state :=
  match r with
  | Ret st => k st
  | Throw e => Throw e
  end.

(** The body of the loop of [MixedPoolAlloc] for one random value. *)
Definition mixed_case (upstream : Z → bool) (val : Z) (st : mixed_state)
    : outcome mixed_state :=
  match val with
  | 0 => push_back_new upstream A st
  | 1 => push_back_new upstream B st
  | 2 => push_back_new upstream C st
  | 3 => push_back_new upstream D st
  | _ =>
      if (4 <? length st.2)%nat
      then and_then (and_then (and_then (pop_back st) pop_back) pop_back) pop_back
      else Ret st
  end.

Fixpoint mixed_loop (upstream : Z → bool) (randomVals : list Z)
    (st : mixed_state) : outcome mixed_state :=
  match randomVals with
  | [] => Ret st
  | val :: vals => and_then (mixed_case upstream val st) (mixed_loop upstream vals)
  end.

(** The end of the scope of [ptrs]: the elements are destroyed, first to
    last. *)
Fixpoint destroy_ptrs (ptrs : list base_ptr) (mp : DataMultipool)
    : outcome DataMultipool :=
  match ptrs with
  | [] => Ret mp
  | q :: ptrs' =>
      match delete_ptr q mp with
      | (Ret _, mp') => destroy_ptrs ptrs' mp'
      | (Throw e, _) => Throw e
      end
  end.

(** [MixedPoolAlloc(randomVals)] on the multipool [mp]. *)
Definition MixedPoolAlloc (upstream : Z → bool) (randomVals : list Z)
    (mp : DataMultipool) : outcome DataMultipool :=
  match mixed_loop upstream randomVals (mp, []) with
  | Ret st => destroy_ptrs st.2 st.1
  | Throw e => Throw e
  end.

(** The pooled half of [TestMixedAlloc]: the run, then [release_all()]. *)
Definition TestMixedAlloc_pooled (upstream : Z → bool) (randomVals : list Z)
    (mp : DataMultipool) : outcome DataMultipool :=
  match MixedPoolAlloc upstream randomVals mp with
  | Ret mp' => Ret (Multipool.release_all Obj mp').2
  | Throw e => Throw e
  end.

(** [static DataMultipool mp(pool_init_block_size)]: every member pool is
    built with the same initial size. *)
Definition DataMultipool_new (upstream : Z → bool) (n : Z) : outcome DataMultipool :=
  match Pool_new (T:=Obj A) Multipool.MaxBlockSize upstream n,
        Pool_new (T:=Obj B) Multipool.MaxBlockSize upstream n,
        Pool_new (T:=Obj C) Multipool.MaxBlockSize upstream n,
        Pool_new (T:=Obj D) Multipool.MaxBlockSize upstream n with
  | Ret pa, Ret pb, Ret pc, Ret pd =>
      Ret (λ t, match t return Pool (Obj t) with
                | A => pa | B => pb | C => pc | D => pd
                end)
  | Throw e, _, _, _ => Throw e
  | _, Throw e, _, _ => Throw e
  | _, _, Throw e, _ => Throw e
  | _, _, _, Throw e => Throw e
  end.

(** What the loop of [MixedPoolAlloc] keeps: every pool has its block
    size within bounds and has lost no slot, and [ptrs] holds exactly the
    live objects, each once. *)
Definition mixed_inv (st : mixed_state) : Prop :=
  (∀ t, 1 ≤ m_blockSize (st.1 t) ≤ Multipool.MaxBlockSize ∧ balanced (st.1 t)) ∧
  NoDup st.2 ∧
  (∀ t a, (t, a) ∈ st.2 ↔ live (st.1 t) a).

End MixedAlloc.
End TestPool.

(** ** Pools used as examples

    Pools of [nat] objects with the default template arguments. *)

Module Examples.
Definition always : Z → bool := λ _, true.
Definition never : Z → bool := λ _, false.

(** [Pool<nat> pool(8)] *)
Definition pool8 : Pool nat :=
  mkPool [fresh_block 0 8] 8 (Some (0%nat, 0%nat)).

(** [pool8] after three objects have been constructed. *)
Definition pool8_three : Pool nat :=
  (construct_all 2 1024 always [10; 11; 12]%nat pool8).2.

(** [Pool<nat> pool(1)] after one object has been constructed: full. *)
Definition pool1_full : Pool nat :=
  (construct 2 1024 always (Some 7%nat)
     (mkPool [fresh_block 0 1] 1 (Some (0%nat, 0%nat)))).2.



(** Twenty constructor arguments. *)
Definition twenty : list nat := seq 100 20.

(** A multipool over two types, [true] standing for [A = nat] and
    [false] for [B = bool]; three [A]s and one [B] have been constructed. *)
Definition AB (i : bool) : Type := if i then nat else bool.

Definition poolB : Pool bool :=
  (construct 2 1024 always (Some true)
     (mkPool [fresh_block 0 8] 8 (Some (0%nat, 0%nat)))).2.

Definition multipool : Multipool.t AB :=
  λ i, match i return Pool (AB i) with
       | true => pool8_three
       | false => poolB
       end.
End Examples.

(** * Properties *)

Section Memory.
Context {T : Type}.
Implicit Types (bl : list (list (Item T))) (blk : list (Item T)).
Implicit Types (a : addr) (it : Item T).

Lemma cell_lookup bl b i blk :
  bl !! b = Some blk → cell bl (b, i) = blk !! i.
Proof. unfold cell; simpl. by intros ->. Qed.

Lemma cell_store_eq bl a it :
  is_Some (cell bl a) → cell (store bl a it) a = Some it.
Proof.
  destruct a as [b i]. unfold cell, store; simpl.
  destruct (bl !! b) as [blk|] eqn:Hb; [|by intros [? ?]].
  intros [x Hx].
  rewrite list_lookup_insert_eq by eauto using lookup_lt_Some.
  apply list_lookup_insert_eq. eauto using lookup_lt_Some.
Qed.

Lemma cell_store_ne bl a a' it :
  a ≠ a' → cell (store bl a it) a' = cell bl a'.
Proof.
  destruct a as [b i], a' as [b' i']. intros Hne.
  unfold cell, store; simpl.
  destruct (bl !! b) as [blk|] eqn:Hb; [|done].
  destruct (decide (b = b')) as [<-|Hbb].
  - rewrite list_lookup_insert_eq by eauto using lookup_lt_Some.
    rewrite Hb. apply list_lookup_insert_ne. congruence.
  - by rewrite list_lookup_insert_ne.
Qed.

Lemma store_block_sizes bl a it :
  length <$> store bl a it = length <$> bl.
Proof.
  destruct a as [b i]. unfold store; simpl.
  destruct (bl !! b) as [blk|] eqn:Hb; [|done].
  rewrite list_fmap_insert, length_insert.
  apply list_insert_id. by rewrite list_lookup_fmap, Hb.
Qed.

Lemma store_length bl a it : length (store bl a it) = length bl.
Proof.
  unfold store. destruct (bl !! a.1); [apply length_insert|done].
Qed.

Lemma cell_app_l bl bl' a :
  is_Some (cell bl a) → cell (bl ++ bl') a = cell bl a.
Proof.
  destruct a as [b i]. unfold cell; simpl.
  destruct (bl !! b) as [blk|] eqn:Hb; [|by intros [? ?]].
  intros _. by rewrite (lookup_app_l_Some _ _ _ _ Hb).
Qed.

Lemma cell_app_new bl blk i :
  cell (bl ++ [blk]) (length bl, i) = blk !! i.
Proof.
  apply cell_lookup. rewrite lookup_app_r by lia.
  by rewrite Nat.sub_diag.
Qed.

(** *** The threading loop *)

Lemma thread_from_length b idx blk :
  length (thread_from b idx blk) = length blk.
Proof.
  revert blk. induction idx as [|i idx IH]; intros blk; simpl; [done|].
  by rewrite IH, length_insert.
Qed.

(** The loop over [i = k, ..., k + m - 1] links item [i - 1] to item [i]
    and leaves the other items alone. *)
Lemma thread_from_seq_lookup b k m blk j :
  (1 ≤ k)%nat → (k + m ≤ S (length blk))%nat →
  thread_from b (seq k m) blk !! j =
    if decide (k - 1 ≤ j < k - 1 + m)%nat
    then Some (Link (Some (b, S j)))
    else blk !! j.
Proof.
  revert k blk. induction m as [|m IH]; intros k blk Hk Hlen; simpl.
  - case_decide; [lia|done].
  - rewrite IH by (rewrite ?length_insert; lia).
    destruct (decide (j = k - 1)%nat) as [->|Hj].
    + rewrite decide_False by lia. rewrite decide_True by lia.
      rewrite list_lookup_insert_eq by lia.
      repeat f_equal; lia.
    + rewrite list_lookup_insert_ne by lia.
      repeat case_decide; try lia; done.
Qed.

(** Item [i] of a fresh block links to item [i + 1], the last item to
    [nullptr]. *)
Lemma fresh_block_length b n : length (fresh_block (T:=T) b n) = Z.to_nat n.
Proof.
  unfold fresh_block, thread. by rewrite thread_from_length, length_replicate.
Qed.

Lemma fresh_block_lookup b n i :
  (i < Z.to_nat n)%nat →
  fresh_block (T:=T) b n !! i =
    Some (Link (if decide (S i < Z.to_nat n)%nat then Some (b, S i) else None)).
Proof.
  intros Hi. unfold fresh_block, thread.
  rewrite thread_from_seq_lookup by (rewrite ?length_replicate; lia).
  destruct (decide (S i < Z.to_nat n)%nat).
  - by rewrite decide_True by lia.
  - rewrite decide_False by lia.
    by rewrite lookup_replicate_2 by lia.
Qed.

End Memory.

Section Chains.
Context {T : Type}.
Implicit Types (bl : list (list (Item T))) (blk : list (Item T)).
Implicit Types (a : addr) (it : Item T) (h : ptr) (fl : list addr).

Lemma chain_links bl h fl a :
  chain bl h fl → a ∈ fl → ∃ next, cell bl a = Some (Link next).
Proof.
  revert h. induction fl as [|a' fl IH]; intros h Hc Hin; simpl in *.
  - by apply elem_of_nil in Hin.
  - destruct Hc as (-> & next & Hcell & Hc).
    apply elem_of_cons in Hin as [->|Hin]; eauto.
Qed.

Lemma chain_functional bl h fl fl' :
  chain bl h fl → chain bl h fl' → fl = fl'.
Proof.
  revert h fl'. induction fl as [|a fl IH]; intros h [|a' fl'] H1 H2; simpl in *.
  - done.
  - destruct H2 as [? _]; congruence.
  - destruct H1 as [? _]; congruence.
  - destruct H1 as (-> & n1 & Hc1 & H1), H2 as (Ha & n2 & Hc2 & H2).
    injection Ha as <-. rewrite Hc1 in Hc2. injection Hc2 as <-.
    f_equal; eauto.
Qed.

(** Writing an item that is not on the chain keeps the chain. *)
Lemma chain_store bl h fl a it :
  a ∉ fl → chain bl h fl → chain (store bl a it) h fl.
Proof.
  revert h. induction fl as [|a' fl IH]; intros h Hni Hc; simpl in *; [done|].
  destruct Hc as (-> & next & Hcell & Hc).
  apply not_elem_of_cons in Hni as [Hne Hni].
  split; [done|]. exists next. split; [|by apply IH].
  by rewrite cell_store_ne.
Qed.

(** Appending a block keeps the chain. *)
Lemma chain_app bl bl' h fl :
  chain bl h fl → chain (bl ++ bl') h fl.
Proof.
  revert h. induction fl as [|a fl IH]; intros h Hc; simpl in *; [done|].
  destruct Hc as (-> & next & Hcell & Hc).
  split; [done|]. exists next. split; [|by apply IH].
  rewrite cell_app_l; eauto.
Qed.

(** The items [k, k + 1, ...] of a fresh last block form a chain. *)
Lemma chain_fresh_block bl n m k :
  (k + m = Z.to_nat n)%nat →
  chain (bl ++ [fresh_block (length bl) n])
    (if decide (k < Z.to_nat n)%nat then Some (length bl, k) else None)
    (pair (length bl) <$> seq k m).
Proof.
  revert k. induction m as [|m IH]; intros k Hk; simpl.
  - by rewrite decide_False by lia.
  - rewrite decide_True by lia. split; [done|].
    eexists. split.
    + rewrite cell_app_new. apply fresh_block_lookup. lia.
    + apply IH. lia.
Qed.

Lemma freeCount_loop_chain bl h fl fuel c :
  chain bl h fl → (length fl ≤ fuel)%nat →
  freeCount_loop fuel bl h c = Some (c + length fl)%nat.
Proof.
  revert h fuel c. induction fl as [|a fl IH]; intros h fuel c Hc Hf; simpl in *.
  - subst h. destruct fuel; simpl; f_equal; lia.
  - destruct Hc as (-> & next & Hcell & Hc).
    destruct fuel as [|fuel]; [lia|]. simpl. rewrite Hcell.
    rewrite (IH next) by (done || lia). f_equal; lia.
Qed.

Lemma FreeList_free_count (p : Pool T) fl :
  FreeList p fl → has_free_count p (length fl).
Proof.
  intros [Hc _] fuel Hf. unfold freeCount.
  by rewrite (freeCount_loop_chain _ _ fl).
Qed.

Lemma FreeList_functional (p : Pool T) fl fl' :
  FreeList p fl → FreeList p fl' → fl = fl'.
Proof. intros [H1 _] [H2 _]. eauto using chain_functional. Qed.

(** Items on the free list are not live. *)
Lemma FreeList_not_live (p : Pool T) fl a :
  FreeList p fl → a ∈ fl → ¬ live p a.
Proof.
  intros [Hc _] Hin [v Hv].
  destruct (chain_links _ _ _ _ Hc Hin) as [next Hn]. congruence.
Qed.

End Chains.

(** ** What each call does to the pool *)

#[local] Arguments cell : simpl never.
#[local] Arguments store : simpl never.
#[local] Arguments fresh_block : simpl never.
#[local] Arguments grown_size : simpl never.

Section Calls.
Context {T : Type}.
Variables G M : Z.
Implicit Types (p : Pool T) (a : addr) (fl : list addr) (up : Z → bool).

Ltac run_monad :=
  unfold construct, destroy, allocate, grow, deallocate, release,
    set_blockSize, set_nextFree, emplace_back, read, write,
    bind, ret, throw, gets, modify, make_unique; simpl.

(** [allocate] with a free item: it is popped, nothing else changes. *)
Lemma allocate_pop up p a next :
  m_nextFree p = Some a →
  cell (m_blocks p) a = Some (Link next) →
  allocate G M up p = (Ret a, mkPool (m_blocks p) (m_blockSize p) next).
Proof. intros Hh Hc. run_monad. rewrite Hh; simpl. rewrite Hh. by rewrite Hc. Qed.

(** [allocate] on a full pool whose request the upstream allocator
    satisfies: one fresh block of [grown_size] items is appended and its
    first item is handed out. *)
Lemma allocate_grow up p :
  m_nextFree p = None →
  up (grown_size G M p) = true →
  0 < grown_size G M p →
  let b := length (m_blocks p) in
  let n := grown_size G M p in
  allocate G M up p =
    (Ret (b, 0%nat),
     mkPool (m_blocks p ++ [fresh_block b n]) n
            (if decide (1 < Z.to_nat n)%nat then Some (b, 1%nat) else None)).
Proof.
  intros Hh Hup Hn. cbv zeta. run_monad. rewrite Hh; simpl.
  fold (grown_size G M p). rewrite Hup; simpl.
  fold (fresh_block (T:=T) (length (m_blocks p)) (grown_size G M p)).
  rewrite cell_app_new, fresh_block_lookup by lia. done.
Qed.

(** [allocate] on a full pool whose request the upstream allocator
    refuses: the block size has been raised already. *)
Lemma allocate_bad_alloc up p :
  m_nextFree p = None →
  up (grown_size G M p) = false →
  allocate G M up p =
    (Throw bad_alloc, mkPool (m_blocks p) (grown_size G M p) (m_nextFree p)).
Proof.
  intros Hh Hup. run_monad. rewrite Hh; simpl.
  fold (grown_size G M p). by rewrite Hup, Hh.
Qed.

Lemma construct_unfold up ctor p :
  construct G M up ctor p =
    match allocate G M up p with
    | (Ret a, p') =>
        match ctor with
        | Some v =>
            match cell (m_blocks p') a with
            | Some _ => (Ret a, mkPool (store (m_blocks p') a (Storage v))
                                       (m_blockSize p') (m_nextFree p'))
            | None => (Throw undefined_behaviour, p')
            end
        | None => (Throw ctor_exception, p')
        end
    | (Throw e, p') => (Throw e, p')
    end.
Proof.
  unfold construct, bind. destruct (allocate G M up p) as [[a|e] p']; [|done].
  destruct ctor as [v|]; [|done].
  unfold write, ret. by destruct (cell (m_blocks p') a).
Qed.

Lemma destroy_live p a v :
  cell (m_blocks p) a = Some (Storage v) →
  destroy (Some a) p =
    (Ret tt, mkPool (store (m_blocks p) a (Link (m_nextFree p)))
                    (m_blockSize p) (Some a)).
Proof. intros Hc. run_monad. rewrite Hc; simpl. by rewrite Hc. Qed.

End Calls.

(** ** The free list through [construct] and [destroy] *)

Section FreeLists.
Context {T : Type}.
Variables G M : Z.
Implicit Types (p : Pool T) (a : addr) (fl : list addr) (up : Z → bool).
Implicit Types (bl : list (list (Item T))).

Lemma FreeList_nil p : FreeList p [] ↔ m_nextFree p = None.
Proof.
  unfold FreeList; simpl. split; [by intros [? _]|].
  intros ->. split; [done|constructor].
Qed.

Lemma FreeList_cons p a fl :
  FreeList p (a :: fl) →
  ∃ next, m_nextFree p = Some a ∧ cell (m_blocks p) a = Some (Link next) ∧
          (a ∉ fl) ∧ FreeList (mkPool (m_blocks p) (m_blockSize p) next) fl.
Proof.
  intros [(Hh & next & Hc & Hch) Hnd]. apply NoDup_cons in Hnd as [Hni Hnd].
  exists next. by repeat split.
Qed.

Lemma cell_past_end bl i : cell bl (length bl, i) = None.
Proof. unfold cell; simpl. by rewrite lookup_ge_None_2. Qed.

Lemma store_app_new bl blk i it :
  store (bl ++ [blk]) (length bl, i) it = bl ++ [<[i:=it]> blk].
Proof.
  unfold store; simpl. rewrite lookup_app_r by lia.
  rewrite Nat.sub_diag; simpl.
  rewrite insert_app_r_alt by lia. by rewrite Nat.sub_diag.
Qed.

Lemma store_store bl a it it' :
  store (store bl a it) a it' = store bl a it'.
Proof.
  destruct a as [b i]. unfold store; simpl.
  destruct (bl !! b) as [blk|] eqn:Hb; [|by rewrite Hb].
  rewrite list_lookup_insert_eq by eauto using lookup_lt_Some.
  by rewrite list_insert_insert_eq, list_insert_insert_eq.
Qed.

Lemma total_slots_app bl (blk : list (Item T)) bs nf bs' nf' :
  total_slots (mkPool (bl ++ [blk]) bs nf) =
    (total_slots (mkPool bl bs' nf') + length blk)%nat.
Proof.
  unfold total_slots, block_sizes; simpl.
  rewrite fmap_app, sum_list_with_app; simpl. lia.
Qed.

Lemma total_slots_store bl a it bs nf bs' nf' :
  total_slots (mkPool (store bl a it) bs nf) = total_slots (mkPool bl bs' nf').
Proof. unfold total_slots, block_sizes; simpl. by rewrite store_block_sizes. Qed.

Lemma NoDup_slots (b k m : nat) : NoDup (pair b <$> seq k m).
Proof. apply NoDup_fmap_2; [|apply NoDup_seq]. by intros ?? [= ->]. Qed.

Lemma elem_of_slots (b k m : nat) a :
  a ∈ pair b <$> seq k m ↔ a.1 = b ∧ (k ≤ a.2 < k + m)%nat.
Proof.
  rewrite list_elem_of_fmap. setoid_rewrite elem_of_seq.
  destruct a as [b' i]; simpl. split.
  - intros (j & [= -> ->] & ?). done.
  - intros [-> ?]. eauto.
Qed.

(** The free list of a pool whose last block is fresh and whose head is
    item [k] of it. *)
Lemma FreeList_fresh_block bl n k bs :
  (k ≤ Z.to_nat n)%nat →
  FreeList (mkPool (bl ++ [fresh_block (length bl) n]) bs
              (if decide (k < Z.to_nat n)%nat then Some (length bl, k) else None))
           (pair (length bl) <$> seq k (Z.to_nat n - k)).
Proof.
  intros Hk. split; simpl; [|apply NoDup_slots].
  apply chain_fresh_block. lia.
Qed.

(** [construct] with a free item at hand. *)
Lemma construct_pop up ctor p a fl :
  FreeList p (a :: fl) →
  ∃ next,
    cell (m_blocks p) a = Some (Link next) ∧
    let p_ok v := mkPool (store (m_blocks p) a (Storage v)) (m_blockSize p) next in
    let p_throw := mkPool (m_blocks p) (m_blockSize p) next in
    construct G M up ctor p =
      match ctor with
      | Some v => (Ret a, p_ok v)
      | None => (Throw ctor_exception, p_throw)
      end ∧
    FreeList p_throw fl ∧ ∀ v, FreeList (p_ok v) fl.
Proof.
  intros (next & Hh & Hc & Hni & Hfl)%FreeList_cons.
  exists next. split; [done|]. cbv zeta. split; [|split; [done|]].
  - rewrite construct_unfold, (allocate_pop G M up p a next) by done.
    destruct ctor as [v|]; [|done]. simpl. by rewrite Hc.
  - intros v. destruct Hfl as [Hch Hnd]. split; [|done]. simpl in *.
    by apply chain_store.
Qed.

(** [construct] on a full pool, the upstream allocator providing the block. *)
Lemma construct_grow up ctor p :
  m_nextFree p = None →
  up (grown_size G M p) = true →
  0 < grown_size G M p →
  let b := length (m_blocks p) in
  let n := grown_size G M p in
  let head := if decide (1 < Z.to_nat n)%nat then Some (b, 1%nat) else None in
  let p_ok v := mkPool (m_blocks p ++ [<[0%nat := Storage v]> (fresh_block b n)]) n head in
  let p_throw := mkPool (m_blocks p ++ [fresh_block b n]) n head in
  construct G M up ctor p =
    match ctor with
    | Some v => (Ret (b, 0%nat), p_ok v)
    | None => (Throw ctor_exception, p_throw)
    end ∧
  FreeList p_throw (pair b <$> seq 1 (Z.to_nat n - 1)) ∧
  ∀ v, FreeList (p_ok v) (pair b <$> seq 1 (Z.to_nat n - 1)).
Proof.
  intros Hh Hup Hn. cbv zeta.
  pose proof (FreeList_fresh_block (m_blocks p) (grown_size G M p) 1
                (grown_size G M p) ltac:(lia)) as Hfl.
  split; [|split; [done|]].
  - rewrite construct_unfold, allocate_grow by done. cbv zeta.
    destruct ctor as [v|]; [|done]. simpl.
    rewrite cell_app_new, fresh_block_lookup by lia.
    by rewrite store_app_new.
  - intros v. destruct Hfl as [Hch Hnd]. split; [|done]. simpl in *.
    rewrite <- store_app_new. apply chain_store; [|done].
    rewrite elem_of_slots; simpl. lia.
Qed.

(** [construct] on a full pool, the upstream allocator refusing the block. *)
Lemma construct_bad_alloc up ctor p :
  m_nextFree p = None →
  up (grown_size G M p) = false →
  construct G M up ctor p =
    (Throw bad_alloc, mkPool (m_blocks p) (grown_size G M p) (m_nextFree p)).
Proof.
  intros Hh Hup. by rewrite construct_unfold, allocate_bad_alloc.
Qed.

(** [destroy] of a live object puts its item in front of the free list. *)
Lemma destroy_FreeList p a fl :
  live p a → FreeList p fl →
  let p' := mkPool (store (m_blocks p) a (Link (m_nextFree p)))
                   (m_blockSize p) (Some a) in
  destroy (Some a) p = (Ret tt, p') ∧ FreeList p' (a :: fl).
Proof.
  intros [v Hv] Hfl. cbv zeta. split; [by eapply destroy_live|].
  assert (a ∉ fl) as Hni.
  { intros Hin. eapply FreeList_not_live; eauto. by exists v. }
  destruct Hfl as [Hch Hnd]. split; [|by apply NoDup_cons].
  simpl. split; [done|]. exists (m_nextFree p). split.
  - apply cell_store_eq. by rewrite Hv.
  - by apply chain_store.
Qed.

End FreeLists.

(** ** The invariant of the pool

    The template arguments are taken as the code expects them: a growth
    factor of at least one, and no wrap-around in [GrowthFactor * m_blockSize]
    for block sizes up to [MaxBlockSize]. *)

Section Invariant.
Context {T : Type}.
Variables G M : Z.
Hypothesis growth_factor_pos : 1 ≤ G.
Hypothesis growth_in_size_t : G * M < SizeT.modulus.
Implicit Types (p : Pool T) (a : addr) (fl : list addr) (up : Z → bool).

Lemma grown_size_eq p :
  1 ≤ m_blockSize p ≤ M →
  grown_size G M p = Z.min (G * m_blockSize p) M.
Proof.
  intros Hbs. unfold grown_size, SizeT.mul, SizeT.wrap.
  rewrite Z.mod_small; [done|]. nia.
Qed.

Lemma grown_size_bounds p :
  1 ≤ m_blockSize p ≤ M →
  m_blockSize p ≤ grown_size G M p ≤ M.
Proof. intros Hbs. rewrite grown_size_eq by done. nia. Qed.

(** What one call of [construct] does, whatever the upstream allocator and
    the constructor do. *)
Lemma construct_step up ctor p fl r p' :
  1 ≤ m_blockSize p ≤ M → FreeList p fl →
  construct G M up ctor p = (r, p') →
  1 ≤ m_blockSize p' ≤ M ∧ m_blockSize p ≤ m_blockSize p' ∧
  (∀ a' x, cell (m_blocks p) a' = Some (Storage x) →
           cell (m_blocks p') a' = Some (Storage x)) ∧
  ∃ fl', FreeList p' fl' ∧
    (length fl' + total_slots p ≤ length fl + total_slots p')%nat ∧
    match r with
    | Ret a =>
        ¬ live p a ∧ live p' a ∧ is_Some ctor ∧
        (length fl' + 1 + total_slots p = length fl + total_slots p')%nat
    | Throw e =>
        (e = bad_alloc ∧ fl = [] ∧ up (grown_size G M p) = false) ∨
        (e = ctor_exception ∧ ctor = None ∧
         (length fl' + 1 + total_slots p = length fl + total_slots p')%nat)
    end.
Proof.
  intros Hbs Hfl Hrun.
  pose proof (grown_size_bounds p Hbs) as Hgs.
  destruct fl as [|a fl].
  - apply FreeList_nil in Hfl as Hh.
    destruct (up (grown_size G M p)) eqn:Hup.
    + destruct (construct_grow G M up ctor p Hh Hup ltac:(lia))
        as (Heq & Hthrow & Hok).
      rewrite Heq in Hrun. clear Heq.
      assert (∀ a' x, cell (m_blocks p) a' = Some (Storage x) →
                      a' ≠ (length (m_blocks p), 0%nat)) as Hne.
      { intros a' x Ha' ->. by rewrite cell_past_end in Ha'. }
      destruct p as [bl bs nf]; simpl in *.
      destruct ctor as [v|]; injection Hrun as <- <-; simpl.
      * split; [lia|]. split; [lia|]. split.
        { intros a' x Ha'. rewrite <- store_app_new.
          rewrite cell_store_ne by (symmetry; eauto).
          rewrite cell_app_l; eauto. }
        eexists. split; [apply Hok|].
        rewrite length_fmap, length_seq.
        rewrite (total_slots_app _ _ _ _ bs nf).
        rewrite length_insert, fresh_block_length.
        split; [simpl; lia|].
        split; [intros [x Hx]; by rewrite cell_past_end in Hx|].
        split; [|split; [by eexists|simpl; lia]].
        exists v. rewrite <- store_app_new. apply cell_store_eq.
        rewrite cell_app_new, fresh_block_lookup by lia. by eexists.
      * split; [lia|]. split; [lia|]. split.
        { intros a' x Ha'. rewrite cell_app_l; eauto. }
        eexists. split; [apply Hthrow|].
        rewrite length_fmap, length_seq.
        rewrite (total_slots_app _ _ _ _ bs nf), fresh_block_length.
        split; [simpl; lia|]. right. repeat split; simpl; lia.
    + rewrite construct_bad_alloc in Hrun by done.
      injection Hrun as <- <-. simpl.
      split; [lia|]. split; [lia|]. split; [done|].
      exists []. split; [by apply FreeList_nil|]. split; [done|]. by left.
  - destruct (construct_pop G M up ctor p a fl Hfl)
      as (next & Hc & Heq & Hthrow & Hok).
    rewrite Heq in Hrun. clear Heq.
    destruct p as [bl bs nf]; simpl in *.
    destruct ctor as [v|]; injection Hrun as <- <-; simpl.
    + split; [lia|]. split; [lia|]. split.
      { intros a' x Ha'. rewrite cell_store_ne; [done|].
        intros Heq; subst a'. by rewrite Hc in Ha'. }
      exists fl. split; [apply Hok|].
      rewrite (total_slots_store _ _ _ _ _ bs nf).
      split; [lia|].
      split; [intros [x Hx]; simpl in Hx; by rewrite Hc in Hx|].
      split; [|split; [by eexists|lia]].
      exists v. apply cell_store_eq. by rewrite Hc.
    + split; [lia|]. split; [lia|]. split; [done|].
      exists fl. split; [done|].
      unfold total_slots, block_sizes; simpl.
      split; [lia|]. right. repeat split; lia.
Qed.

(** With the upstream allocator and the constructor succeeding,
    [construct] returns. *)
Lemma construct_returns up v p fl :
  1 ≤ m_blockSize p ≤ M → FreeList p fl → (∀ n, up n = true) →
  ∃ a p', construct G M up (Some v) p = (Ret a, p').
Proof.
  intros Hbs Hfl Hup.
  destruct (construct G M up (Some v) p) as [[a|e] p'] eqn:Hrun; [by eauto|].
  destruct (construct_step _ _ _ _ _ _ Hbs Hfl Hrun)
    as (_ & _ & _ & fl' & _ & _ & [(_ & _ & Hf)|(_ & [=] & _)]).
  by rewrite Hup in Hf.
Qed.

End Invariant.

(** ** Block sizes, for any pool and any call *)

Section Sizes.
Context {T : Type}.
Variables G M : Z.
Implicit Types (p : Pool T) (a : addr) (up : Z → bool).


(** [allocate] asks the upstream allocator exactly when the pool is full,
    and then appends the block it gets; it writes no item. *)
Lemma allocate_blocks up p r p' :
  allocate G M up p = (r, p') →
  m_blocks p' =
    (if full p && up (grown_size G M p)
     then m_blocks p ++ [fresh_block (length (m_blocks p)) (grown_size G M p)]
     else m_blocks p) ∧
  m_blockSize p' = (if full p then grown_size G M p else m_blockSize p).
Proof.
  unfold full, allocate, grow, set_blockSize, set_nextFree, emplace_back,
    read, bind, ret, throw, gets, modify, make_unique; simpl.
  destruct (m_nextFree p) as [a|] eqn:Hh; simpl.
  - rewrite Hh. destruct (cell (m_blocks p) a) as [[next|v]|]; simpl;
      by (intros ?; simplify_eq).
  - fold (grown_size G M p).
    destruct (up (grown_size G M p)); simpl; [|by (intros ?; simplify_eq)].
    fold (fresh_block (T:=T) (length (m_blocks p)) (grown_size G M p)).
    destruct (cell _ _) as [[next|v]|]; simpl; by (intros ?; simplify_eq).
Qed.

Lemma construct_blocks up ctor p r p' :
  construct G M up ctor p = (r, p') →
  block_sizes p' =
    block_sizes p ++
    (if full p && up (grown_size G M p) then [Z.to_nat (grown_size G M p)] else []) ∧
  m_blockSize p' = (if full p then grown_size G M p else m_blockSize p).
Proof.
  rewrite construct_unfold.
  destruct (allocate G M up p) as [r1 p1] eqn:Ha.
  apply allocate_blocks in Ha as [Hb Hs].
  assert (block_sizes p1 =
    block_sizes p ++
    (if full p && up (grown_size G M p) then [Z.to_nat (grown_size G M p)] else []))
    as Hb1.
  { unfold block_sizes. rewrite Hb.
    destruct (full p && up (grown_size G M p)).
    - by rewrite fmap_app; simpl; rewrite fresh_block_length.
    - by rewrite app_nil_r. }
  destruct r1 as [a|e]; [|by (intros ?; simplify_eq)].
  destruct ctor as [v|]; [|by (intros ?; simplify_eq)].
  destruct (cell (m_blocks p1) a); intros ?; simplify_eq; [|done].
  split; [|done]. unfold block_sizes in *; simpl.
  by rewrite store_block_sizes.
Qed.

Lemma construct_total up ctor p r p' :
  construct G M up ctor p = (r, p') → (total_slots p ≤ total_slots p')%nat.
Proof.
  intros [Hb _]%construct_blocks. unfold total_slots.
  rewrite Hb, sum_list_with_app. lia.
Qed.

Lemma destroy_blocks q p r p' :
  destroy q p = (r, p') →
  block_sizes p' = block_sizes p ∧ m_blockSize p' = m_blockSize p.
Proof.
  destruct q as [a|]; [|by (unfold destroy, ret; intros ?; simplify_eq)].
  unfold destroy, deallocate, set_nextFree, read, write,
    bind, ret, throw, gets, modify; simpl.
  destruct (cell (m_blocks p) a) as [[next|v]|] eqn:Hc; simpl;
    try by (intros ?; simplify_eq).
  rewrite Hc. intros ?; simplify_eq. split; [|done].
  unfold block_sizes; simpl. by rewrite store_block_sizes.
Qed.

End Sizes.

(** ** Sequences of calls *)

Section Sequences.
Context {T : Type}.
Variables G M : Z.
Hypothesis growth_factor_pos : 1 ≤ G.
Hypothesis growth_in_size_t : G * M < SizeT.modulus.
Implicit Types (p : Pool T) (a : addr) (fl hs : list addr) (up : Z → bool).

Lemma live_frame p p' a :
  (∀ a' x, cell (m_blocks p) a' = Some (Storage x) →
           cell (m_blocks p') a' = Some (Storage x)) →
  live p a → live p' a.
Proof. intros Hframe [x Hx]. exists x. eauto. Qed.

(** Handles returned by a sequence of [construct] calls are pairwise
    distinct, distinct from the objects that were live before, and all
    live at the end. *)
Lemma construct_seq_spec calls p fl :
  1 ≤ m_blockSize p ≤ M → FreeList p fl →
  let hs := (construct_seq G M calls p).1 in
  let p' := (construct_seq G M calls p).2 in
  NoDup hs ∧ Forall (live p') hs ∧
  (∀ a, live p a → (a ∉ hs) ∧ live p' a) ∧
  pool_inv M p'.
Proof.
  revert p fl. induction calls as [|[up ctor] calls IH]; intros p fl Hbs Hfl; simpl.
  - split; [apply NoDup_nil_2|]. split; [done|]. split.
    + intros a Ha. split; [|done]. apply not_elem_of_nil.
    + split; eauto.
  - destruct (construct G M up ctor p) as [r p1] eqn:Hrun; simpl.
    destruct (construct_step G M growth_factor_pos growth_in_size_t
                _ _ _ _ _ _ Hbs Hfl Hrun)
      as (Hbs1 & _ & Hframe & fl1 & Hfl1 & _ & Hr).
    destruct (IH p1 fl1 Hbs1 Hfl1) as (Hnd & Hlive & Hold & Hinv).
    destruct r as [a|e]; simpl.
    + destruct Hr as (Hfresh & Hnew & _).
      destruct (Hold a Hnew) as [Hni Hlive_a].
      split; [by apply NoDup_cons|].
      split; [by apply Forall_cons|].
      split; [|done].
      intros a0 Ha0.
      destruct (Hold a0 (live_frame _ _ _ Hframe Ha0)) as [Hni0 Hl0].
      split; [|done].
      apply not_elem_of_cons. split; [|done].
      intros ->. done.
    + split; [done|]. split; [done|]. split; [|done].
      intros a0 Ha0. apply Hold. by eapply live_frame.
Qed.

(** [construct_all] returns when upstream and constructors succeed, and
    accounts for every slot. *)
Lemma construct_all_spec up vs p fl :
  1 ≤ m_blockSize p ≤ M → FreeList p fl → (∀ n, up n = true) →
  ∃ hs p' fl',
    construct_all G M up vs p = (Ret hs, p') ∧
    construct_seq G M ((λ v, (up, Some v)) <$> vs) p = (hs, p') ∧
    length hs = length vs ∧
    FreeList p' fl' ∧
    (length fl' + length vs + total_slots p = length fl + total_slots p')%nat ∧
    (total_slots p ≤ total_slots p')%nat.
Proof.
  intros Hbs Hfl Hup. revert p fl Hbs Hfl.
  induction vs as [|v vs IH]; intros p fl Hbs Hfl; simpl.
  - exists [], p, fl. unfold ret. repeat split; try done; try apply Hfl; lia.
  - destruct (construct_returns G M growth_factor_pos growth_in_size_t
                up v p fl Hbs Hfl Hup) as (a & p1 & Hrun).
    destruct (construct_step G M growth_factor_pos growth_in_size_t
                _ _ _ _ _ _ Hbs Hfl Hrun)
      as (Hbs1 & _ & _ & fl1 & Hfl1 & _ & _ & _ & _ & Hcount).
    destruct (IH p1 fl1 Hbs1 Hfl1)
      as (hs & p' & fl' & Hall & Hseq & Hlen & Hfl' & Hc & Htot).
    pose proof (construct_total G M _ _ _ _ _ Hrun) as Htot1.
    exists (a :: hs), p', fl'.
    unfold bind, ret. rewrite !Hrun; simpl. unfold fmap in Hseq.
    rewrite Hall, Hseq; simpl.
    repeat split; try done; try apply Hfl'; lia.
Qed.

(** Destroying distinct live objects, in the order given, puts their items
    on the free list, last destroyed first. *)
Lemma destroy_all_spec hs p fl :
  NoDup hs → Forall (live p) hs → FreeList p fl →
  ∃ p', destroy_all hs p = (Ret tt, p') ∧
        FreeList p' (reverse hs ++ fl) ∧
        block_sizes p' = block_sizes p ∧ m_blockSize p' = m_blockSize p.
Proof.
  revert p fl. induction hs as [|a hs IH]; intros p fl Hnd Hlive Hfl.
  - exists p. by unfold destroy_all, ret.
  - apply NoDup_cons in Hnd as [Hni Hnd].
    apply Forall_cons in Hlive as [Ha Hlive].
    destruct (destroy_FreeList p a fl Ha Hfl) as [Hrun Hfl1].
    cbv zeta in Hrun, Hfl1.
    set (p1 := mkPool _ _ _) in Hrun, Hfl1.
    assert (Forall (live p1) hs) as Hlive1.
    { apply Forall_forall. intros a' Hin.
      rewrite Forall_forall in Hlive. destruct (Hlive a' Hin) as [x Hx].
      exists x. subst p1; simpl. rewrite cell_store_ne; [done|].
      intros ->. done. }
    destruct (IH p1 (a :: fl) Hnd Hlive1 Hfl1) as (p' & Hall & Hfl' & Hb & Hs).
    exists p'. cbn [destroy_all]. unfold bind. rewrite Hrun, Hall.
    rewrite reverse_cons, <- app_assoc. simpl.
    repeat split; try done; try apply Hfl'.
    rewrite Hb. unfold block_sizes; subst p1; simpl.
    by rewrite store_block_sizes.
Qed.

End Sequences.

(** ** The sizes of the blocks over a run *)

Section Growth.
Context {T : Type}.
Variables G M : Z.
Hypothesis growth_factor_pos : 1 ≤ G.
Hypothesis growth_in_size_t : G * M < SizeT.modulus.
Implicit Types (p : Pool T) (o : op T) (os : list (op T)).

(** One call obtains at most one block, of the block size the call leaves
    in [m_blockSize], and never lowers the block size. *)
Lemma step_sizes o p :
  1 ≤ m_blockSize p ≤ M →
  let p' := step G M o p in
  let new := drop (length (m_blocks p)) (block_sizes p') in
  1 ≤ m_blockSize p' ≤ M ∧ m_blockSize p ≤ m_blockSize p' ∧
  (new = [] ∨ new = [Z.to_nat (m_blockSize p')]) ∧
  (block_sizes p' = block_sizes p ++ new ∨ block_sizes p' = []).
Proof.
  intros Hbs. cbv zeta.
  pose proof (grown_size_bounds G M growth_factor_pos growth_in_size_t p Hbs) as Hgs.
  assert (length (m_blocks p) = length (block_sizes p)) as Hlen
    by (unfold block_sizes; by rewrite length_fmap).
  destruct o as [up ctor|q|]; simpl.
  - destruct (construct G M up ctor p) as [r p'] eqn:Hrun; simpl.
    apply construct_blocks in Hrun as [Hb Hs].
    rewrite Hb, Hs, drop_app_length' by done.
    destruct (full p); simpl; [destruct (up _)|]; simpl;
      repeat split; try lia; eauto.
  - destruct (destroy q p) as [r p'] eqn:Hrun; simpl.
    apply destroy_blocks in Hrun as [Hb Hs].
    rewrite Hb, Hs, Hlen, drop_all, app_nil_r.
    repeat split; try lia; eauto.
  - unfold block_sizes at 1 3 4; simpl. rewrite drop_nil.
    repeat split; try lia; eauto.
Qed.

(** The blocks obtained during a run have non-decreasing sizes between the
    block size at the start and [MaxBlockSize]; the block size never goes
    down; the blocks the pool holds at the end are the last ones obtained. *)
Lemma allocated_spec os p :
  1 ≤ m_blockSize p ≤ M →
  Forall (λ s, Z.to_nat (m_blockSize p) ≤ s ≤ Z.to_nat M)%nat (allocated G M os p) ∧
  StronglySorted le (allocated G M os p) ∧
  1 ≤ m_blockSize (run G M os p) ≤ M ∧
  m_blockSize p ≤ m_blockSize (run G M os p) ∧
  ∃ earlier, block_sizes p ++ allocated G M os p =
             earlier ++ block_sizes (run G M os p).
Proof.
  revert p. induction os as [|o os IH]; intros p Hbs; simpl.
  - split; [done|]. split; [constructor|]. split; [done|]. split; [lia|].
    exists []. by rewrite app_nil_r.
  - destruct (step_sizes o p Hbs) as (Hbs' & Hmono & Hnew & Hblocks).
    cbv zeta in Hnew, Hblocks.
    destruct (IH (step G M o p) Hbs') as (Hall & Hsorted & Hb & Hm & earlier & Hsuffix).
    assert (Forall (λ s, Z.to_nat (m_blockSize p) ≤ s ≤ Z.to_nat M)%nat
              (allocated G M os (step G M o p))) as Hall'.
    { eapply Forall_impl; [exact Hall|]. simpl. lia. }
    split; [|split; [|split; [done|split; [lia|]]]].
    + apply Forall_app. split; [|done].
      destruct Hnew as [->| ->]; [done|].
      apply Forall_singleton. lia.
    + destruct Hnew as [->| ->]; [done|]. simpl.
      constructor; [done|].
      eapply Forall_impl; [exact Hall|]. simpl. lia.
    + destruct Hblocks as [Hb1|Hb1].
      * exists earlier. by rewrite app_assoc, <- Hb1.
      * exists (block_sizes p ++ drop (length (m_blocks p))
                  (block_sizes (step G M o p)) ++ earlier).
        rewrite Hb1 in Hsuffix; simpl in Hsuffix.
        by rewrite Hsuffix, !app_assoc.
Qed.

(** Every call keeps the invariant, a [destroy] being given [nullptr] or a
    live object as the code requires. *)
Lemma pool_inv_step o p :
  pool_inv M p →
  (∀ a, o = Destroy (Some a) → live p a) →
  pool_inv M (step G M o p).
Proof.
  intros [Hbs [fl Hfl]] Hlive. destruct o as [up ctor|[a|]|]; cbn [step].
  - destruct (construct G M up ctor p) as [r p'] eqn:Hrun; simpl.
    destruct (construct_step G M growth_factor_pos growth_in_size_t
                _ _ _ _ _ _ Hbs Hfl Hrun) as (Hbs' & _ & _ & fl' & Hfl' & _).
    split; eauto.
  - destruct (destroy_FreeList p a fl (Hlive a eq_refl) Hfl) as [Hrun Hfl'].
    cbv zeta in Hrun, Hfl'. rewrite Hrun; simpl. split; eauto.
  - split; eauto.
  - split; [done|]. exists []. by apply FreeList_nil.
Qed.

Lemma pool_inv_run os p :
  pool_inv M p →
  Forall (λ o, ∀ a, o ≠ Destroy (Some a)) os →
  pool_inv M (run G M os p).
Proof.
  revert p. induction os as [|o os IH]; intros p Hinv Hos; simpl; [done|].
  apply Forall_cons in Hos as [Ho Hos]. apply IH; [|done].
  apply pool_inv_step; [done|]. intros a ->. by destruct (Ho a).
Qed.

End Growth.

(** ** The constructor *)

Section Constructor.
Context {T : Type}.
Variables G M : Z.
Implicit Types (p : Pool T) (a : addr) (up : Z → bool).

Lemma fresh_block_no_object b n i (v : T) :
  fresh_block b n !! i ≠ Some (Storage v).
Proof.
  destruct (decide (i < Z.to_nat n)%nat) as [Hi|Hi].
  - by rewrite fresh_block_lookup.
  - rewrite lookup_ge_None_2; [done|]. rewrite fresh_block_length. lia.
Qed.

Lemma Pool_new_Ret up size :
  0 < size ≤ M → up size = true →
  Pool_new (T:=T) M up size =
    Ret (mkPool [fresh_block 0 size] size (Some (0%nat, 0%nat))).
Proof.
  intros [H0 HM] Hup. unfold Pool_new, make_unique.
  rewrite (proj2 (Z.ltb_lt _ _) H0), (proj2 (Z.leb_le _ _) HM), Hup. done.
Qed.

Lemma Pool_new_assert up size :
  Pool_new (T:=T) M up size = Throw assertion_failure ↔ ¬ (0 < size ≤ M).
Proof.
  unfold Pool_new, make_unique.
  destruct (Z.ltb_spec 0 size); simpl; [|split; [lia|done]].
  destruct (Z.leb_spec size M); simpl; [|split; [lia|done]].
  destruct (up size); split; (done || lia).
Qed.

(** The pool the constructor builds: one block, all of it on the free
    list in address order, no object. *)
Lemma Pool_new_state size :
  0 < size →
  let p : Pool T := mkPool [fresh_block 0 size] size (Some (0%nat, 0%nat)) in
  FreeList p (pair 0%nat <$> seq 0 (Z.to_nat size)) ∧
  block_sizes p = [Z.to_nat size] ∧
  ∀ a, ¬ live p a.
Proof.
  intros Hsize. cbv zeta. split; [|split].
  - pose proof (FreeList_fresh_block (T:=T) [] size 0 size ltac:(lia)) as Hfl.
    rewrite decide_True, Nat.sub_0_r in Hfl by lia. exact Hfl.
  - unfold block_sizes; simpl. by rewrite fresh_block_length.
  - intros [b i] [v Hv]. unfold cell in Hv; simpl in Hv.
    destruct b as [|b]; simpl in Hv; [|done].
    by apply fresh_block_no_object in Hv.
Qed.

End Constructor.

(** * The claims *)

(** C9. [Pool(initialSize)] fails its assertions exactly when
    [initialSize == 0] or [initialSize > MaxBlockSize]; for
    [1 ≤ initialSize ≤ MaxBlockSize] (and a block provided by the upstream
    allocator) it builds a pool with one block of [initialSize] items, all
    of them free. *)
Theorem Pool_new_contract {T : Type} (M : Z) (up : Z → bool) (size : Z) :
  0 ≤ size →
  (Pool_new (T:=T) M up size = Throw assertion_failure ↔ size = 0 ∨ M < size) ∧
  (1 ≤ size ≤ M → up size = true →
   ∃ p : Pool T,
     Pool_new M up size = Ret p ∧
     block_sizes p = [Z.to_nat size] ∧
     m_blockSize p = size ∧
     FreeList p (pair 0%nat <$> seq 0 (Z.to_nat size)) ∧
     has_free_count p (Z.to_nat size) ∧
     ∀ a, ¬ live p a).
Proof.
  intros Hsize. split.
  - rewrite Pool_new_assert. lia.
  - intros Hrange Hup. eexists. split; [apply Pool_new_Ret; [lia|done]|].
    destruct (Pool_new_state (T:=T) size ltac:(lia)) as (Hfl & Hb & Hlive).
    repeat split; try done; try apply Hfl.
    apply FreeList_free_count in Hfl.
    by rewrite length_fmap, length_seq in Hfl.
Qed.

(** C1, as the code has it. [release()] keeps [m_blockSize]: the first
    block allocated after it has [min(GrowthFactor * m_blockSize,
    MaxBlockSize)] items, [m_blockSize] being the block size before the
    release, and [construct] returns its first item. *)
Theorem release_then_construct {T : Type} (G M : Z) (up : Z → bool) (v : T)
    (p : Pool T) :
  1 ≤ G → G * M < SizeT.modulus →
  1 ≤ m_blockSize p ≤ M →
  let n := Z.min (G * m_blockSize p) M in
  up n = true →
  ∃ p1 p2,
    release p = (Ret tt, p1) ∧
    m_blocks p1 = [] ∧ m_nextFree p1 = None ∧ m_blockSize p1 = m_blockSize p ∧
    construct G M up (Some v) p1 = (Ret (0%nat, 0%nat), p2) ∧
    block_sizes p2 = [Z.to_nat n] ∧
    m_blockSize p2 = n ∧
    live p2 (0%nat, 0%nat) ∧
    FreeList p2 (pair 0%nat <$> seq 1 (Z.to_nat n - 1)) ∧
    has_free_count p2 (Z.to_nat n - 1).
Proof.
  intros HG HGM Hbs n Hup.
  set (p1 := mkPool (T:=T) [] (m_blockSize p) None).
  assert (grown_size G M p1 = n) as Hn by (by apply grown_size_eq).
  destruct (construct_grow G M up (Some v) p1 eq_refl) as (Hrun & _ & Hfl).
  { by rewrite Hn. }
  { rewrite Hn. unfold n. lia. }
  cbv zeta in Hrun, Hfl. rewrite Hn in Hrun, Hfl. simpl in Hrun, Hfl.
  eexists p1, _. split; [done|]. do 3 (split; [done|]).
  split; [exact Hrun|]. simpl.
  split; [unfold block_sizes; simpl; by rewrite length_insert, fresh_block_length|].
  split; [done|]. split; [|split; [apply Hfl|]].
  - exists v. unfold cell; simpl. apply list_lookup_insert_eq.
    rewrite fresh_block_length. unfold n. lia.
  - pose proof (FreeList_free_count _ _ (Hfl v)) as Hc.
    by rewrite length_fmap, length_seq in Hc.
Qed.

(** C3, as the code has it. When the upstream allocator fails during
    growth, [bad_alloc] reaches the caller of [construct]; the block list
    and the free-list head are as before, and so is the (empty) free list,
    but [m_blockSize] has already been set to
    [min(GrowthFactor * m_blockSize, MaxBlockSize)]. *)
Theorem construct_upstream_failure {T : Type} (G M : Z) (up : Z → bool)
    (ctor : option T) (p : Pool T) :
  full p = true →
  up (Z.min (SizeT.mul G (m_blockSize p)) M) = false →
  ∃ p',
    construct G M up ctor p = (Throw bad_alloc, p') ∧
    m_blocks p' = m_blocks p ∧
    m_nextFree p' = m_nextFree p ∧
    (∀ fl, FreeList p fl → FreeList p' fl) ∧
    m_blockSize p' = Z.min (SizeT.mul G (m_blockSize p)) M.
Proof.
  intros Hfull Hup.
  assert (m_nextFree p = None) as Hh.
  { unfold full in Hfull. by destruct (m_nextFree p). }
  eexists. split; [by apply construct_bad_alloc|]. simpl.
  do 2 (split; [done|]). split; [|done].
  intros fl [Hc Hnd]. by split.
Qed.

(** C6. Destroying a live object and constructing right after returns the
    same slot: [destroy] puts the item at the head of the free list and
    [construct] takes the head, without growing. *)
Theorem destroy_then_construct_reuses {T : Type} (G M : Z) (up : Z → bool)
    (v : T) (p : Pool T) (x : addr) :
  live p x →
  ∃ p1 p2,
    destroy (Some x) p = (Ret tt, p1) ∧
    m_nextFree p1 = Some x ∧
    cell (m_blocks p1) x = Some (Link (m_nextFree p)) ∧
    construct G M up (Some v) p1 = (Ret x, p2) ∧
    m_blocks p2 = store (m_blocks p) x (Storage v) ∧
    block_sizes p2 = block_sizes p ∧
    m_blockSize p2 = m_blockSize p ∧
    m_nextFree p2 = m_nextFree p.
Proof.
  intros [w Hw].
  assert (cell (store (m_blocks p) x (Link (m_nextFree p))) x =
          Some (Link (T:=T) (m_nextFree p))) as Hc.
  { apply cell_store_eq. by rewrite Hw. }
  eexists _, _. split; [by eapply destroy_live|]. simpl.
  split; [done|]. split; [done|]. split.
  - rewrite construct_unfold.
    erewrite allocate_pop by (simpl; done || exact Hc). simpl.
    rewrite Hc. by rewrite store_store.
  - simpl. split; [done|]. split; [|done].
    unfold block_sizes; simpl. by rewrite store_block_sizes.
Qed.

Lemma freeCount_loop_lower {T : Type} fuel (bl : list (list (Item T))) h c n :
  freeCount_loop fuel bl h c = Some n →
  (c ≤ n)%nat ∧ (is_Some h → c < n)%nat.
Proof.
  revert h c. induction fuel as [|fuel IH]; intros h c; simpl.
  - destruct h; [done|]. intros [= <-]. split; [lia|]. by intros [? ?].
  - destruct h as [a|]; [|intros [= <-]; split; [lia|by intros [? ?]]].
    destruct (cell bl a) as [[next|v]|]; try done.
    intros [Hle _]%IH. split; [lia|]. intros _. lia.
Qed.

(** C8. [full()] holds exactly when the free list is empty. [construct]
    asks the upstream allocator for a block exactly when the pool is full,
    and appends the block it is given; on a pool that is not full the
    outcome does not depend on the upstream allocator, the block list has
    the same blocks (only the item handed out is written) and
    [m_blockSize] is unchanged. *)
Theorem full_iff_growth {T : Type} (G M : Z) (up : Z → bool) (ctor : option T)
    (p : Pool T) :
  (full p = true ↔ FreeList p []) ∧
  (∀ fuel, full p = true ↔ freeCount fuel p = Some 0%nat) ∧
  let r := (construct G M up ctor p).1 in
  let p' := (construct G M up ctor p).2 in
  (full p = false →
     (∀ up', construct G M up' ctor p = construct G M up ctor p) ∧
     m_blocks p' =
       match r, ctor with
       | Ret a, Some v => store (m_blocks p) a (Storage v)
       | _, _ => m_blocks p
       end ∧
     block_sizes p' = block_sizes p ∧
     m_blockSize p' = m_blockSize p) ∧
  (full p = true →
     block_sizes p' =
       block_sizes p ++
       (if up (grown_size G M p) then [Z.to_nat (grown_size G M p)] else [])) ∧
  (length (m_blocks p') = S (length (m_blocks p)) ↔
     full p = true ∧ up (grown_size G M p) = true).
Proof.
  assert (full p = true ↔ m_nextFree p = None) as Hfull.
  { unfold full. destruct (m_nextFree p); split; done. }
  split; [by rewrite FreeList_nil|]. split.
  { intros fuel. rewrite Hfull. unfold freeCount. split.
    - intros ->. by destruct fuel.
    - intros Hc. destruct (m_nextFree p) as [a|] eqn:Hh; [|done].
      apply freeCount_loop_lower in Hc as [_ Hlt].
      specialize (Hlt ltac:(by eexists)). lia. }
  cbv zeta.
  destruct (construct G M up ctor p) as [r p'] eqn:Hrun; simpl.
  pose proof (construct_blocks _ _ _ _ _ _ _ Hrun) as [Hb Hs].
  assert (length (m_blocks p') = length (block_sizes p')) as Hlen'
    by (unfold block_sizes; by rewrite length_fmap).
  assert (length (m_blocks p) = length (block_sizes p)) as Hlen
    by (unfold block_sizes; by rewrite length_fmap).
  split; [|split].
  - intros Hnf. rewrite Hnf in Hb, Hs. simpl in Hb. rewrite app_nil_r in Hb.
    split; [|split; [|done]].
    + intros up'. rewrite <- Hrun, !construct_unfold.
      unfold full in Hnf. destruct (m_nextFree p) as [a|] eqn:Hh; [|done].
      unfold allocate, bind, gets, ret. by rewrite Hh.
    + rewrite construct_unfold in Hrun.
      destruct (allocate G M up p) as [r1 p1] eqn:Ha.
      apply allocate_blocks in Ha as [Hb1 _]. rewrite Hnf in Hb1; simpl in Hb1.
      destruct r1 as [a|e]; [|by simplify_eq].
      destruct ctor as [v|]; [|by simplify_eq].
      destruct (cell (m_blocks p1) a); simplify_eq; simpl; by rewrite ?Hb1.
  - intros Ht. by rewrite Ht in Hb.
  - rewrite Hlen', Hlen, Hb, length_app.
    destruct (full p), (up (grown_size G M p)); simpl; split;
      try lia; try done; intros [? ?]; done.
Qed.

(** C2, as the code has it. When the constructor throws, the exception
    reaches the caller of [construct], and the slot [allocate] had taken is
    not put back: no object is built in it and it is off the free list, so
    the free count is one less than before the call (plus the items of the
    new block when the call had to grow). *)
Theorem construct_ctor_failure {T : Type} (G M : Z) (up : Z → bool)
    (p : Pool T) (fl : list addr) :
  1 ≤ G → G * M < SizeT.modulus →
  1 ≤ m_blockSize p ≤ M →
  FreeList p fl →
  (full p = true → up (grown_size G M p) = true) →
  ∃ a p' fl',
    allocate G M up p = (Ret a, p') ∧
    construct G M up None p = (Throw ctor_exception, p') ∧
    FreeList p' fl' ∧ (a ∉ fl') ∧ ¬ live p' a ∧
    has_free_count p' (length fl') ∧
    (length fl' + 1 + total_slots p = length fl + total_slots p')%nat ∧
    (full p = false →
       m_blocks p' = m_blocks p ∧ fl = a :: fl' ∧ length fl' = (length fl - 1)%nat).
Proof.
  intros HG HGM Hbs Hfl Hup.
  pose proof (grown_size_bounds G M HG HGM p Hbs) as Hgs.
  destruct fl as [|a fl].
  - apply FreeList_nil in Hfl as Hh.
    assert (full p = true) as Hfull by (unfold full; by rewrite Hh).
    specialize (Hup Hfull).
    destruct (construct_grow G M up None p Hh Hup ltac:(lia)) as (Hrun & Hthrow & _).
    pose proof (allocate_grow G M up p Hh Hup ltac:(lia)) as Halloc.
    cbv zeta in *.
    eexists _, _, _. split; [exact Halloc|]. split; [exact Hrun|].
    split; [exact Hthrow|]. split; [|split; [|split; [|split]]].
    + rewrite elem_of_slots; simpl. lia.
    + intros [v Hv]. simpl in Hv. rewrite cell_app_new in Hv.
      by apply fresh_block_no_object in Hv.
    + by apply FreeList_free_count.
    + destruct p as [bl bs nf].
      rewrite (total_slots_app _ _ _ _ bs nf), fresh_block_length.
      rewrite length_fmap, length_seq. simpl. lia.
    + intros Hnf. congruence.
  - destruct (construct_pop G M up None p a fl Hfl) as (next & Hc & Hrun & Hthrow & _).
    destruct (FreeList_cons _ _ _ Hfl) as (next' & Hh & Hc' & Hni & _).
    pose proof (allocate_pop G M up p a next Hh Hc) as Halloc.
    cbv zeta in *.
    eexists _, _, _. split; [exact Halloc|]. split; [exact Hrun|].
    split; [exact Hthrow|]. split; [done|]. split; [|split; [|split]].
    + intros [v Hv]. simpl in Hv. by rewrite Hc in Hv.
    + by apply FreeList_free_count.
    + unfold total_slots, block_sizes; simpl. lia.
    + intros _. simpl. repeat split; lia.
Qed.

(** C7. The handles returned by a sequence of [construct] calls with no
    [destroy] in between are pairwise distinct slots, all holding a live
    object at the end, and none of them is the slot of an object that was
    live before the sequence. *)
Theorem construct_handles_distinct {T : Type} (G M : Z)
    (calls : list ((Z → bool) * option T)) (p : Pool T) :
  1 ≤ G → G * M < SizeT.modulus →
  pool_inv M p →
  let hs := (construct_seq G M calls p).1 in
  let p' := (construct_seq G M calls p).2 in
  NoDup hs ∧
  (∀ i j a b, hs !! i = Some a → hs !! j = Some b → i ≠ j → a ≠ b) ∧
  Forall (live p') hs ∧
  (∀ a, live p a → (a ∉ hs) ∧ live p' a) ∧
  pool_inv M p'.
Proof.
  intros HG HGM [Hbs [fl Hfl]].
  destruct (construct_seq_spec G M HG HGM calls p fl Hbs Hfl)
    as (Hnd & Hlive & Hold & Hinv).
  cbv zeta in *. repeat split; try done; try apply Hinv; try apply Hold; try done.
  intros i j a b Hi Hj Hij ->. apply Hij.
  by eapply NoDup_lookup.
Qed.

Lemma Pool_new_inv {T : Type} (M : Z) (up : Z → bool) (size : Z) (p0 : Pool T) :
  Pool_new M up size = Ret p0 →
  0 < size ≤ M ∧ p0 = mkPool [fresh_block 0 size] size (Some (0%nat, 0%nat)).
Proof.
  unfold Pool_new, make_unique.
  destruct (Z.ltb_spec 0 size); simpl; [|done].
  destruct (Z.leb_spec size M); simpl; [|done].
  destruct (up size); [|done]. intros [= <-]. split; [lia|done].
Qed.

(** The constructor establishes the invariant. *)
Lemma Pool_new_pool_inv {T : Type} (M : Z) (up : Z → bool) (size : Z) (p0 : Pool T) :
  Pool_new M up size = Ret p0 → pool_inv M p0.
Proof.
  intros [Hsize ->]%Pool_new_inv.
  destruct (Pool_new_state (T:=T) size ltac:(lia)) as (Hfl & _).
  split; [simpl; lia|]. eauto.
Qed.



(** C5, as the code has it. With [gained] the items of the blocks obtained
    during [N] constructs, the free count is [before - N + gained] after
    the constructs, and [before + gained] after the [N] objects have been
    destroyed, in any order. For growth factor 2, maximum 1024 and initial
    size 8: after 20 constructs the blocks have sizes 8 and 16 and the free
    count is 4; after destroying the 20 objects it is 24. *)
Theorem construct_destroy_free_count {T : Type} :
  (∀ (G M : Z) (up : Z → bool) (vs : list T) (p : Pool T) (fl : list addr),
     1 ≤ G → G * M < SizeT.modulus →
     (∀ n, up n = true) →
     1 ≤ m_blockSize p ≤ M →
     FreeList p fl →
     ∃ hs p',
       construct_all G M up vs p = (Ret hs, p') ∧
       length hs = length vs ∧
       (total_slots p ≤ total_slots p')%nat ∧
       let gained := (total_slots p' - total_slots p)%nat in
       (length vs ≤ length fl + gained)%nat ∧
       has_free_count p' (length fl + gained - length vs) ∧
       ∀ hs', hs' ≡ₚ hs →
         ∃ p'', destroy_all hs' p' = (Ret tt, p'') ∧
                block_sizes p'' = block_sizes p' ∧
                has_free_count p'' (length fl + gained)) ∧
  (∀ vs : list T,
     length vs = 20%nat →
     let up : Z → bool := λ _, true in
     ∃ p0 hs p1,
       Pool_new 1024 up 8 = Ret p0 ∧
       has_free_count p0 8 ∧
       construct_all 2 1024 up vs p0 = (Ret hs, p1) ∧
       block_sizes p1 = [8; 16]%nat ∧
       has_free_count p1 4 ∧
       ∀ hs', hs' ≡ₚ hs →
         ∃ p2, destroy_all hs' p1 = (Ret tt, p2) ∧ has_free_count p2 24).
Proof.
  assert (∀ (G M : Z) (up : Z → bool) (vs : list T) (p : Pool T) (fl : list addr),
     1 ≤ G → G * M < SizeT.modulus →
     (∀ n, up n = true) →
     1 ≤ m_blockSize p ≤ M →
     FreeList p fl →
     ∃ hs p',
       construct_all G M up vs p = (Ret hs, p') ∧
       length hs = length vs ∧
       (total_slots p ≤ total_slots p')%nat ∧
       let gained := (total_slots p' - total_slots p)%nat in
       (length vs ≤ length fl + gained)%nat ∧
       has_free_count p' (length fl + gained - length vs) ∧
       ∀ hs', hs' ≡ₚ hs →
         ∃ p'', destroy_all hs' p' = (Ret tt, p'') ∧
                block_sizes p'' = block_sizes p' ∧
                has_free_count p'' (length fl + gained)) as General.
  { intros G M up vs p fl HG HGM Hup Hbs Hfl.
    destruct (construct_all_spec G M HG HGM up vs p fl Hbs Hfl Hup)
      as (hs & p' & fl' & Hall & Hseq & Hlen & Hfl' & Hcount & Htot).
    destruct (construct_seq_spec G M HG HGM ((λ v, (up, Some v)) <$> vs) p fl Hbs Hfl)
      as (Hnd & Hlive & _ & _).
    cbv zeta in Hnd, Hlive. rewrite Hseq in Hnd, Hlive. simpl in Hnd, Hlive.
    exists hs, p'. split; [done|]. split; [done|]. split; [done|]. cbv zeta.
    split; [lia|]. split.
    - replace (length fl + (total_slots p' - total_slots p) - length vs)%nat
        with (length fl') by lia.
      by apply FreeList_free_count.
    - intros hs' Hperm.
      destruct (destroy_all_spec hs' p' fl') as (p'' & Hd & Hfl'' & Hb & _); try done.
      + by rewrite Hperm.
      + by rewrite Hperm.
      + exists p''. split; [done|]. split; [done|].
        apply FreeList_free_count in Hfl''.
        rewrite length_app, length_reverse, (Permutation_length Hperm) in Hfl''.
        replace (length fl + (total_slots p' - total_slots p))%nat
          with (length hs + length fl')%nat by lia.
        done. }
  split; [exact General|].
  intros vs Hlen up.
  destruct (Pool_new_state (T:=T) 8 ltac:(lia)) as (Hfl0 & Hb0 & _).
  cbv zeta in Hfl0, Hb0.
  destruct (General 2 1024 up vs
              (mkPool [fresh_block 0 8] 8 (Some (0%nat, 0%nat)))
              (pair 0%nat <$> seq 0 (Z.to_nat 8))
              ltac:(lia) ltac:(reflexivity) ltac:(done) ltac:(simpl; lia) Hfl0)
    as (hs & p1 & Hall & _ & _ & Hgain & Hfree & Hdestroy).
  cbv zeta in Hgain, Hfree, Hdestroy.
  assert (block_sizes p1 = [8; 16]%nat) as Hb1.
  { change p1 with (Ret hs, p1).2. rewrite <- Hall. clear - Hlen.
    do 20 (destruct vs as [|? vs]; [done|]). destruct vs; [|done].
    vm_compute. reflexivity. }
  assert (total_slots p1 = 24%nat) as Ht1 by (unfold total_slots; by rewrite Hb1).
  assert (total_slots (mkPool (T:=T) [fresh_block 0 8] 8 (Some (0%nat, 0%nat))) = 8%nat)
    as Ht0 by (unfold total_slots; by rewrite Hb0).
  rewrite Ht0, Ht1, Hlen, length_fmap, length_seq in Hfree.
  eexists _, hs, p1. split; [reflexivity|].
  split; [|split; [exact Hall|split; [done|split; [exact Hfree|]]]].
  - apply FreeList_free_count in Hfl0.
    by rewrite length_fmap, length_seq in Hfl0.
  - intros hs' Hperm. destruct (Hdestroy hs' Hperm) as (p2 & Hd & _ & Hc).
    rewrite Ht0, Ht1, length_fmap, length_seq in Hc.
    by exists p2.
Qed.

(** ** The multipool *)

Section MultipoolFrame.
Context {I : Type} `{EqDecision I} (Ts : I → Type).
Implicit Types (mp : Multipool.t Ts) (i j : I).

Lemma Multipool_get_set_eq i (p : Pool (Ts i)) mp :
  Multipool.get Ts i (Multipool.set Ts i p mp) = p.
Proof.
  unfold Multipool.get, Multipool.set.
  destruct (decide (i = i)) as [e|]; [|done].
  by rewrite (proof_irrel e eq_refl).
Qed.

Lemma Multipool_get_set_ne i j (p : Pool (Ts i)) mp :
  i ≠ j → Multipool.get Ts j (Multipool.set Ts i p mp) = Multipool.get Ts j mp.
Proof.
  intros Hne. unfold Multipool.get, Multipool.set.
  by destruct (decide (i = j)).
Qed.

(** A call on the pool of one type runs that pool's member function on
    that pool and touches no other pool. *)
Lemma Multipool_on_pool {A} i (m : PoolM (Ts i) A) mp :
  (Multipool.on_pool Ts i m mp).1 = (m (Multipool.get Ts i mp)).1 ∧
  Multipool.get Ts i (Multipool.on_pool Ts i m mp).2 = (m (Multipool.get Ts i mp)).2 ∧
  ∀ j, i ≠ j →
    Multipool.get Ts j (Multipool.on_pool Ts i m mp).2 = Multipool.get Ts j mp.
Proof.
  unfold Multipool.on_pool; simpl. split; [done|]. split.
  - apply Multipool_get_set_eq.
  - intros j Hne. by apply Multipool_get_set_ne.
Qed.

End MultipoolFrame.

(** C10. [release<A>()] releases the pool of type [A] and no other: for a
    different type [B] the member pool is the same state as before, with
    the same blocks, free list and live objects, and [construct<B>] does
    on it what it would have done without the release; in particular it
    returns a new object and keeps the live ones. *)
Theorem multipool_release_frame {I : Type} `{EqDecision I} (Ts : I → Type)
    (mp : Multipool.t Ts) (A B : I) :
  A ≠ B →
  let mp' := (Multipool.release Ts A mp).2 in
  (Multipool.release Ts A mp).1 = Ret tt ∧
  Multipool.get Ts A mp' = (release (Multipool.get Ts A mp)).2 ∧
  m_blocks (Multipool.get Ts A mp') = [] ∧
  Multipool.get Ts B mp' = Multipool.get Ts B mp ∧
  (∀ fl, FreeList (Multipool.get Ts B mp') fl ↔ FreeList (Multipool.get Ts B mp) fl) ∧
  (∀ a, live (Multipool.get Ts B mp') a ↔ live (Multipool.get Ts B mp) a) ∧
  (∀ up ctor,
     let r := Multipool.construct Ts B up ctor mp' in
     let r0 := construct Multipool.GrowthFactor Multipool.MaxBlockSize up ctor
                 (Multipool.get Ts B mp) in
     r.1 = r0.1 ∧ Multipool.get Ts B r.2 = r0.2 ∧
     Multipool.get Ts A r.2 = Multipool.get Ts A mp') ∧
  (∀ up v,
     pool_inv Multipool.MaxBlockSize (Multipool.get Ts B mp) →
     (∀ n, up n = true) →
     let r := Multipool.construct Ts B up (Some v) mp' in
     ∃ a, r.1 = Ret a ∧
          live (Multipool.get Ts B r.2) a ∧
          ∀ a0, live (Multipool.get Ts B mp) a0 →
                a0 ≠ a ∧ live (Multipool.get Ts B r.2) a0).
Proof.
  intros Hne. cbv zeta.
  destruct (Multipool_on_pool Ts A release mp) as (Hr & HA & Hother).
  fold (Multipool.release Ts A mp) in Hr, HA, Hother.
  pose proof (Hother B Hne) as HB.
  split; [done|]. split; [done|]. split; [by rewrite HA|]. split; [done|].
  split; [by rewrite HB|]. split; [by rewrite HB|].
  assert (∀ up ctor,
    let r := Multipool.construct Ts B up ctor (Multipool.release Ts A mp).2 in
    let r0 := construct Multipool.GrowthFactor Multipool.MaxBlockSize up ctor
                (Multipool.get Ts B mp) in
    r.1 = r0.1 ∧ Multipool.get Ts B r.2 = r0.2 ∧
    Multipool.get Ts A r.2 = Multipool.get Ts A (Multipool.release Ts A mp).2)
    as Hconstruct.
  { intros up ctor. cbv zeta.
    destruct (Multipool_on_pool Ts B
                (construct Multipool.GrowthFactor Multipool.MaxBlockSize up ctor)
                (Multipool.release Ts A mp).2) as (H1 & H2 & H3).
    fold (Multipool.construct Ts B up ctor (Multipool.release Ts A mp).2) in H1, H2, H3.
    rewrite HB in H1, H2. split; [done|]. split; [done|].
    apply H3. by apply not_eq_sym. }
  split; [exact Hconstruct|].
  intros up v [Hbs [fl Hfl]] Hup. cbv zeta.
  destruct (Hconstruct up (Some v)) as (H1 & H2 & _). cbv zeta in H1, H2.
  rewrite H1, H2.
  destruct (construct_returns Multipool.GrowthFactor Multipool.MaxBlockSize
              ltac:(done) ltac:(reflexivity) up v _ fl Hbs Hfl Hup)
    as (a & p' & Hrun).
  destruct (construct_step Multipool.GrowthFactor Multipool.MaxBlockSize
              ltac:(done) ltac:(reflexivity) _ _ _ _ _ _ Hbs Hfl Hrun)
    as (_ & _ & Hframe & _ & _ & _ & Hfresh & Hlive & _).
  rewrite Hrun; simpl. exists a. split; [done|]. split; [done|].
  intros a0 Ha0. split.
  - intros ->. done.
  - destruct Ha0 as [x Hx]. exists x. eauto.
Qed.

(** * The claims at concrete pools *)

Import Examples.

(** The free lists of the example pools, by evaluation. *)
Ltac eval_FreeList :=
  split;
  [ vm_compute;
    repeat (split; [reflexivity|]; eexists; split; [reflexivity|]);
    reflexivity
  | apply (bool_decide_unpack _); vm_compute; exact I ].

Lemma pool8_FreeList : FreeList pool8 (pair 0%nat <$> seq 0 8).
Proof. eval_FreeList. Defined.

Lemma pool8_inv : pool_inv 1024 pool8.
Proof. split; [simpl; lia|]. eexists. apply pool8_FreeList. Defined.

Lemma poolB_inv : pool_inv 1024 poolB.
Proof.
  split; [vm_compute; split; discriminate|].
  exists (pair 0%nat <$> seq 1 7). eval_FreeList.
Defined.

(** C9 at [Pool<nat>(8)]. *)
Lemma Pool_new_contract_witness :
  0 ≤ 8 ∧
  ∃ p : Pool nat,
    Pool_new 1024 always 8 = Ret p ∧ block_sizes p = [8%nat] ∧
    has_free_count p 8.
Proof.
  split; [lia|].
  destruct (Pool_new_contract (T:=nat) 1024 always 8 ltac:(lia)) as [_ Hok].
  destruct (Hok ltac:(lia) eq_refl) as (p & Hnew & Hb & _ & _ & Hc & _).
  exists p. split; [exact Hnew|]. split; [exact Hb|exact Hc].
Defined.

(** C1 at [Pool<nat>(8)]: the block after the release has 16 items. *)
Lemma release_then_construct_witness :
  1 ≤ 2 ∧ 2 * 1024 < SizeT.modulus ∧ 1 ≤ m_blockSize pool8 ≤ 1024 ∧
  always (Z.min (2 * m_blockSize pool8) 1024) = true ∧
  ∃ p1 p2,
    release pool8 = (Ret tt, p1) ∧
    construct 2 1024 always (Some 7%nat) p1 = (Ret (0%nat, 0%nat), p2) ∧
    block_sizes p2 = [16%nat] ∧ m_blockSize p2 = 16 ∧
    has_free_count p2 15.
Proof.
  assert (1 ≤ m_blockSize pool8 ≤ 1024) as Hbs by (simpl; lia).
  split; [lia|]. split; [reflexivity|]. split; [exact Hbs|]. split; [reflexivity|].
  destruct (release_then_construct 2 1024 always 7%nat pool8
              ltac:(lia) eq_refl Hbs eq_refl)
    as (p1 & p2 & Hr & _ & _ & _ & Hc & Hb & Hs & _ & _ & Hcount).
  exists p1, p2. repeat split; assumption.
Defined.

(** The claim C1 fails at [Pool<nat>(8)], which has no live object: after
    [release()] the first block has 16 items, not the initial 8, and
    [m_blockSize] is 16. *)
Lemma release_resets_block_size_counterexample :
  ∃ p0 p1 p2 : Pool nat, ∃ a,
    Pool_new 1024 always 8 = Ret p0 ∧
    (∀ x, ¬ live p0 x) ∧
    release p0 = (Ret tt, p1) ∧
    construct 2 1024 always (Some 7%nat) p1 = (Ret a, p2) ∧
    block_sizes p0 = [8%nat] ∧
    block_sizes p2 = [16%nat] ∧ m_blockSize p2 = 16 ∧
    block_sizes p2 ≠ block_sizes p0.
Proof.
  exists pool8. eexists _, _, _.
  split; [reflexivity|].
  split; [exact (proj2 (proj2 (Pool_new_state (T:=nat) 8 ltac:(lia))))|].
  split; [reflexivity|]. split; [vm_compute; reflexivity|].
  split; [reflexivity|]. split; [reflexivity|]. split; [reflexivity|].
  vm_compute. discriminate.
Qed.

(** C2 at [Pool<nat>(8)]: the failed call leaves seven free items. *)
Lemma construct_ctor_failure_witness :
  1 ≤ 2 ∧ 2 * 1024 < SizeT.modulus ∧ 1 ≤ m_blockSize pool8 ≤ 1024 ∧
  FreeList pool8 (pair 0%nat <$> seq 0 8) ∧
  (full pool8 = true → always (grown_size 2 1024 pool8) = true) ∧
  ∃ a p' fl',
    construct 2 1024 always None pool8 = (Throw ctor_exception, p') ∧
    FreeList p' fl' ∧ (a ∉ fl') ∧ ¬ live p' a ∧
    pair 0%nat <$> seq 0 8 = a :: fl' ∧
    has_free_count p' 7.
Proof.
  assert (1 ≤ m_blockSize pool8 ≤ 1024) as Hbs by (simpl; lia).
  split; [lia|]. split; [reflexivity|]. split; [exact Hbs|].
  split; [exact pool8_FreeList|]. split; [reflexivity|].
  destruct (construct_ctor_failure 2 1024 always pool8 _
              ltac:(lia) eq_refl Hbs pool8_FreeList (λ _, eq_refl))
    as (a & p' & fl' & _ & Hrun & Hfl & Hni & Hnl & Hc & _ & Hnf).
  destruct (Hnf eq_refl) as (_ & Heq & Hlen).
  exists a, p', fl'. rewrite Hlen in Hc.
  repeat split; try assumption; apply Hfl.
Defined.

(** The claim C2 fails at [Pool<nat>(8)]: eight items are free before the
    call whose constructor throws, seven after it. *)
Lemma construct_ctor_failure_counterexample :
  ∃ p0 p1 : Pool nat,
    Pool_new 1024 always 8 = Ret p0 ∧
    freeCount 64 p0 = Some 8%nat ∧
    construct 2 1024 always None p0 = (Throw ctor_exception, p1) ∧
    freeCount 64 p1 = Some 7%nat ∧
    freeCount 64 p1 ≠ freeCount 64 p0.
Proof.
  exists pool8. eexists.
  split; [reflexivity|]. split; [reflexivity|].
  split; [vm_compute; reflexivity|]. split; [reflexivity|].
  vm_compute. discriminate.
Qed.

(** C3 at a full [Pool<nat>(1)] and an upstream allocator that fails. *)
Lemma construct_upstream_failure_witness :
  full pool1_full = true ∧
  never (Z.min (SizeT.mul 2 (m_blockSize pool1_full)) 1024) = false ∧
  ∃ p',
    construct 2 1024 never (Some 9%nat) pool1_full = (Throw bad_alloc, p') ∧
    m_blocks p' = m_blocks pool1_full ∧
    m_nextFree p' = m_nextFree pool1_full ∧
    m_blockSize p' = 2.
Proof.
  split; [reflexivity|]. split; [reflexivity|].
  destruct (construct_upstream_failure 2 1024 never (Some 9%nat) pool1_full
              eq_refl eq_refl)
    as (p' & Hrun & Hb & Hh & _ & Hs).
  exists p'. repeat split; assumption.
Defined.

(** The claim C3 fails at a full [Pool<nat>(1)]: the failed growth leaves
    [m_blockSize] at 2, it was 1 before the call. *)
Lemma construct_upstream_failure_counterexample :
  ∃ (p0 p1 p2 : Pool nat) a,
    Pool_new 1024 always 1 = Ret p0 ∧
    construct 2 1024 always (Some 7%nat) p0 = (Ret a, p1) ∧
    full p1 = true ∧
    construct 2 1024 never (Some 9%nat) p1 = (Throw bad_alloc, p2) ∧
    m_blockSize p1 = 1 ∧ m_blockSize p2 = 2 ∧
    m_blockSize p2 ≠ m_blockSize p1.
Proof.
  eexists _, _, _, _.
  split; [reflexivity|]. split; [vm_compute; reflexivity|].
  split; [reflexivity|].
  split; [vm_compute; reflexivity|]. split; [reflexivity|]. split; [reflexivity|].
  vm_compute. discriminate.
Qed.



(** C5 at [Pool<nat>(8)] and twenty objects, destroyed last first. *)
Lemma construct_destroy_free_count_witness :
  length twenty = 20%nat ∧
  ∃ p0 hs p1 p2,
    Pool_new 1024 always 8 = Ret p0 ∧
    has_free_count p0 8 ∧
    construct_all 2 1024 always twenty p0 = (Ret hs, p1) ∧
    block_sizes p1 = [8; 16]%nat ∧
    has_free_count p1 4 ∧
    destroy_all (reverse hs) p1 = (Ret tt, p2) ∧
    has_free_count p2 24.
Proof.
  split; [reflexivity|].
  destruct (construct_destroy_free_count (T:=nat)) as [_ Hscenario].
  destruct (Hscenario twenty eq_refl) as (p0 & hs & p1 & Hnew & H8 & Hall & Hb & H4 & Hd).
  destruct (Hd (reverse hs)) as (p2 & Hdestroy & H24).
  { apply reverse_Permutation. }
  exists p0, hs, p1, p2. repeat split; assumption.
Defined.

(** The claim C5 fails at its own scenario: 8 items are free before, the
    20 constructs gain the 16 items of one block, and after the 20 objects
    have been destroyed 24 items are free, not [8 - 20 + 16 = 4]. *)
Lemma construct_destroy_free_count_counterexample :
  ∃ (p0 p1 p2 : Pool nat) hs,
    Pool_new 1024 always 8 = Ret p0 ∧
    freeCount 64 p0 = Some 8%nat ∧
    construct_all 2 1024 always twenty p0 = (Ret hs, p1) ∧
    (total_slots p1 - total_slots p0 = 16)%nat ∧
    destroy_all hs p1 = (Ret tt, p2) ∧
    freeCount 64 p2 = Some 24%nat ∧
    (24 : Z) ≠ 8 - Z.of_nat (length twenty) + 16.
Proof.
  exists pool8. eexists _, _, _.
  split; [reflexivity|]. split; [reflexivity|].
  split; [vm_compute; reflexivity|]. split; [reflexivity|].
  split; [vm_compute; reflexivity|]. split; [reflexivity|].
  vm_compute. discriminate.
Qed.

(** C6 at [Pool<nat>(8)] holding three objects: the second one is
    destroyed and its slot comes back. *)
Lemma destroy_then_construct_reuses_witness :
  live pool8_three (0%nat, 1%nat) ∧
  ∃ p1 p2,
    destroy (Some (0%nat, 1%nat)) pool8_three = (Ret tt, p1) ∧
    construct 2 1024 never (Some 42%nat) p1 = (Ret (0%nat, 1%nat), p2) ∧
    block_sizes p2 = block_sizes pool8_three ∧
    m_nextFree p2 = m_nextFree pool8_three.
Proof.
  assert (live pool8_three (0%nat, 1%nat)) as Hlive by (by exists 11%nat).
  split; [exact Hlive|].
  destruct (destroy_then_construct_reuses 2 1024 never 42%nat pool8_three
              (0%nat, 1%nat) Hlive)
    as (p1 & p2 & Hd & _ & _ & Hc & _ & Hb & _ & Hh).
  exists p1, p2. repeat split; assumption.
Defined.

(** C7 at [Pool<nat>(8)] and ten calls, one with a throwing constructor:
    the nine handles are distinct. *)
Lemma construct_handles_distinct_witness :
  1 ≤ 2 ∧ 2 * 1024 < SizeT.modulus ∧ pool_inv 1024 pool8 ∧
  let calls := (always, None) :: ((λ v, (always, Some v)) <$> seq 1 9) in
  length (construct_seq 2 1024 calls pool8).1 = 9%nat ∧
  NoDup (construct_seq 2 1024 calls pool8).1 ∧
  Forall (live (construct_seq 2 1024 calls pool8).2) (construct_seq 2 1024 calls pool8).1.
Proof.
  split; [lia|]. split; [reflexivity|]. split; [exact pool8_inv|].
  intros calls.
  destruct (construct_handles_distinct 2 1024 calls pool8 ltac:(lia) eq_refl pool8_inv)
    as (Hnd & _ & Hlive & _).
  split; [reflexivity|]. split; assumption.
Defined.

(** C8 at a pool that is not full and at one that is. *)
Lemma full_iff_growth_witness :
  (full pool8 = false ∧
   block_sizes (construct 2 1024 never (Some 1%nat) pool8).2 = block_sizes pool8 ∧
   m_blockSize (construct 2 1024 never (Some 1%nat) pool8).2 = m_blockSize pool8) ∧
  (full pool1_full = true ∧ FreeList pool1_full [] ∧
   block_sizes (construct 2 1024 always (Some 1%nat) pool1_full).2 =
     block_sizes pool1_full ++ [2%nat]).
Proof.
  split.
  - destruct (full_iff_growth 2 1024 never (Some 1%nat) pool8)
      as (_ & _ & Hnf & _).
    destruct (Hnf eq_refl) as (_ & _ & Hb & Hs).
    split; [reflexivity|]. split; assumption.
  - destruct (full_iff_growth 2 1024 always (Some 1%nat) pool1_full)
      as (Hfull & _ & _ & Hf & _).
    split; [reflexivity|]. split; [exact (proj1 Hfull eq_refl)|].
    exact (Hf eq_refl).
Defined.

(** C10 at a multipool over two types: [release<A>()] leaves the pool of
    [B] and its object alone, and a [B] can be constructed afterwards. *)
Lemma multipool_release_frame_witness :
  true ≠ false ∧
  let mp' := (Multipool.release AB true multipool).2 in
  m_blocks (Multipool.get AB true mp') = [] ∧
  Multipool.get AB false mp' = poolB ∧
  live (Multipool.get AB false mp') (0%nat, 0%nat) ∧
  ∃ a, (Multipool.construct AB false always (Some false) mp').1 = Ret a ∧
       a ≠ (0%nat, 0%nat).
Proof.
  assert (true ≠ false) as Hne by discriminate.
  split; [exact Hne|]. intros mp'.
  destruct (multipool_release_frame AB multipool true false Hne)
    as (_ & _ & HA & HB & _ & Hlive & _ & Hc).
  fold mp' in HA, HB, Hlive, Hc.
  assert (live poolB (0%nat, 0%nat)) as HliveB by (by exists true).
  split; [exact HA|]. split; [exact HB|].
  split; [by apply Hlive|].
  destruct (Hc always false poolB_inv (λ _, eq_refl)) as (a & Hr & _ & Hold).
  exists a. split; [exact Hr|].
  intros ->. by destruct (Hold _ HliveB) as [Hneq _].
Defined.

(** * Further properties of the pool *)

Section Frames.
Context {T : Type}.
Variables G M : Z.
Implicit Types (p : Pool T) (a : addr) (fl : list addr) (up : Z → bool).
Implicit Types (bl : list (list (Item T))).

Lemma cell_app_inv bl (blk : list (Item T)) a it :
  cell (bl ++ [blk]) a = Some it →
  cell bl a = Some it ∨ (a.1 = length bl ∧ blk !! a.2 = Some it).
Proof.
  destruct a as [b i]. unfold cell; simpl.
  destruct (decide (b < length bl)%nat) as [Hb|Hb].
  - rewrite lookup_app_l by done. eauto.
  - rewrite lookup_app_r by lia.
    destruct (b - length bl)%nat as [|k] eqn:Hk; simpl; [|done].
    intros Hit. right. split; [lia|done].
Qed.

Lemma store_id bl a it : cell bl a = Some it → store bl a it = bl.
Proof.
  destruct a as [b i]. unfold cell, store; simpl.
  destruct (bl !! b) as [blk|] eqn:Hb; [|done].
  intros Hi. rewrite (list_insert_id blk) by done. by apply list_insert_id.
Qed.

(** The item [allocate] hands out was a link, in the blocks as [allocate]
    leaves them, and the new head is what it linked to. *)
Lemma allocate_Ret up p a p1 :
  allocate G M up p = (Ret a, p1) →
  cell (m_blocks p1) a = Some (Link (m_nextFree p1)).
Proof.
  unfold allocate, grow, set_blockSize, set_nextFree, emplace_back,
    read, bind, ret, throw, gets, modify, make_unique; simpl.
  destruct (m_nextFree p) as [a0|] eqn:Hh; simpl.
  - rewrite Hh. destruct (cell (m_blocks p) a0) as [[next|v]|] eqn:Hc; simpl;
      intros ?; simplify_eq. done.
  - destruct (up _); simpl; [|intros ?; simplify_eq].
    destruct (cell _ _) as [[next|v]|] eqn:Hc; simpl; intros ?; simplify_eq.
    done.
Qed.

(** The blocks after a [construct] that returned, from the blocks before. *)
Lemma construct_Ret up ctor p a p' :
  construct G M up ctor p = (Ret a, p') →
  ∃ v bl1 next,
    ctor = Some v ∧
    (bl1 = m_blocks p ∨
     bl1 = m_blocks p ++ [fresh_block (length (m_blocks p)) (grown_size G M p)]) ∧
    cell bl1 a = Some (Link next) ∧
    m_blocks p' = store bl1 a (Storage v) ∧
    m_nextFree p' = next.
Proof.
  rewrite construct_unfold.
  destruct (allocate G M up p) as [[a1|e] p1] eqn:Ha; [|intros ?; simplify_eq].
  pose proof (allocate_Ret _ _ _ _ Ha) as Hc.
  apply allocate_blocks in Ha as [Hb _].
  destruct ctor as [v|]; [|intros ?; simplify_eq].
  rewrite Hc. intros ?; simplify_eq. simpl.
  exists v, (m_blocks p1), (m_nextFree p1). repeat split; try done.
  rewrite Hb. destruct (full p && up (grown_size G M p)); eauto.
Qed.

(** Whatever [construct] does, objects that were live stay where they are,
    with their value. *)
Lemma construct_frame up ctor p r p' a x :
  construct G M up ctor p = (r, p') →
  cell (m_blocks p) a = Some (Storage x) →
  cell (m_blocks p') a = Some (Storage x).
Proof.
  intros Hrun Hx.
  assert (∀ p1, (m_blocks p1 = m_blocks p ∨
                 m_blocks p1 = m_blocks p ++
                   [fresh_block (length (m_blocks p)) (grown_size G M p)]) →
                cell (m_blocks p1) a = Some (Storage x)) as Hkeep.
  { intros p1 [-> | ->]; [done|]. rewrite cell_app_l; eauto. }
  destruct r as [a0|e].
  - destruct (construct_Ret _ _ _ _ _ Hrun) as (v & bl1 & next & _ & Hbl & Hc & -> & _).
    assert (cell bl1 a = Some (Storage x)) as Hx1.
    { apply (Hkeep (mkPool bl1 0 None)). exact Hbl. }
    rewrite cell_store_ne; [done|]. intros ->. by rewrite Hc in Hx1.
  - rewrite construct_unfold in Hrun.
    destruct (allocate G M up p) as [r1 p1] eqn:Ha.
    apply allocate_blocks in Ha as [Hb _].
    assert (cell (m_blocks p1) a = Some (Storage x)) as Hx1.
    { apply Hkeep. rewrite Hb. destruct (full p && up (grown_size G M p)); eauto. }
    destruct r1 as [a1|e1]; [|by simplify_eq].
    destruct ctor as [v|]; [|by simplify_eq].
    destruct (cell (m_blocks p1) a1); by simplify_eq.
Qed.

(** Whatever [destroy] does, the objects at other addresses stay where they
    are, with their value. *)
Lemma destroy_frame q p r p' a :
  destroy q p = (r, p') → q ≠ Some a →
  cell (m_blocks p') a = cell (m_blocks p) a.
Proof.
  destruct q as [a0|]; [|by (unfold destroy, ret; intros ?; simplify_eq)].
  unfold destroy, deallocate, set_nextFree, read, write,
    bind, ret, throw, gets, modify; simpl.
  destruct (cell (m_blocks p) a0) as [[next|v]|] eqn:Hc; simpl;
    try by (intros ?; simplify_eq).
  rewrite Hc. intros ? Hne; simplify_eq. simpl.
  apply cell_store_ne. congruence.
Qed.

End Frames.

Section Counting.
Context {T : Type}.
Implicit Types (p : Pool T) (a : addr) (fl : list addr).
Implicit Types (bl : list (list (Item T))) (blk : list (Item T)).

Lemma count_objects_insert blk i old new :
  blk !! i = Some old →
  (count_objects (<[i:=new]> blk) + count_objects [old] =
   count_objects blk + count_objects [new])%nat.
Proof.
  revert i. induction blk as [|it blk IH]; intros i Hi; [done|].
  destruct i as [|i]; simpl in Hi.
  - injection Hi as ->. destruct old, new; simpl; lia.
  - specialize (IH i Hi). destruct it; simpl in *; lia.
Qed.

Lemma live_count_store bl a old new bs nf bs' nf' :
  cell bl a = Some old →
  (live_count (mkPool (store bl a new) bs nf) + count_objects [old] =
   live_count (mkPool bl bs' nf') + count_objects [new])%nat.
Proof.
  destruct a as [b i]. unfold cell, store, live_count; simpl.
  destruct (bl !! b) as [blk|] eqn:Hb; [|done]. intros Hi.
  pose proof (count_objects_insert blk i old new Hi) as Hblk.
  clear Hi. revert b Hb. induction bl as [|blk0 bl IH]; intros b Hb; [done|].
  destruct b as [|b]; csimpl in *.
  - injection Hb as ->. lia.
  - specialize (IH b Hb). lia.
Qed.

Lemma live_count_app bl blk bs nf bs' nf' :
  live_count (mkPool (bl ++ [blk]) bs nf) =
    (live_count (mkPool bl bs' nf') + count_objects blk)%nat.
Proof.
  unfold live_count; simpl. rewrite fmap_app, sum_list_with_app. simpl. lia.
Qed.

Lemma count_objects_links blk :
  (∀ i v, blk !! i ≠ Some (Storage v)) → count_objects blk = 0%nat.
Proof.
  induction blk as [|it blk IH]; intros Hno; [done|].
  destruct it as [next|v]; simpl.
  - apply IH. intros i v. apply (Hno (S i) v).
  - by destruct (Hno 0%nat v).
Qed.

Lemma count_objects_fresh b n : count_objects (fresh_block (T:=T) b n) = 0%nat.
Proof. apply count_objects_links. intros i v. apply fresh_block_no_object. Qed.

Lemma live_count_none p : (∀ a, ¬ live p a) → live_count p = 0%nat.
Proof.
  unfold live_count, live. destruct p as [bl bs nf]; simpl. intros Hno.
  assert (∀ b blk, bl !! b = Some blk → count_objects blk = 0%nat) as Hblk.
  { intros b blk Hb. apply count_objects_links. intros i v Hi.
    apply (Hno (b, i)). exists v. by rewrite (cell_lookup _ _ _ _ Hb). }
  clear Hno. induction bl as [|blk bl IH]; [done|]. csimpl.
  rewrite (Hblk 0%nat blk eq_refl), IH; [done|].
  intros b blk' Hb. apply (Hblk (S b) blk' Hb).
Qed.

Lemma link_slots_of_length b i blk :
  (length (link_slots_of b i blk) + count_objects blk = length blk)%nat.
Proof.
  revert i. induction blk as [|it blk IH]; intros i; [done|].
  specialize (IH (S i)). destruct it; simpl; lia.
Qed.

Lemma link_slots_of_elem b i blk j next :
  blk !! j = Some (Link next) → (b, (i + j)%nat) ∈ link_slots_of b i blk.
Proof.
  revert i j. induction blk as [|it blk IH]; intros i j Hj; [done|].
  destruct j as [|j]; simpl in Hj.
  - injection Hj as ->. simpl. rewrite Nat.add_0_r. apply list_elem_of_here.
  - specialize (IH (S i) j Hj). replace (i + S j)%nat with (S i + j)%nat by lia.
    destruct it; simpl; [by apply list_elem_of_further|done].
Qed.

Lemma link_slots_from_length b bl :
  (length (link_slots_from b bl) + sum_list (count_objects <$> bl) =
   sum_list (length <$> bl))%nat.
Proof.
  revert b. induction bl as [|blk bl IH]; intros b; [done|]. csimpl.
  rewrite length_app. specialize (IH (S b)).
  pose proof (link_slots_of_length b 0 blk). lia.
Qed.

Lemma link_slots_from_elem b0 bl k j next :
  cell bl (k, j) = Some (Link next) →
  ((b0 + k)%nat, j) ∈ link_slots_from b0 bl.
Proof.
  revert b0 k. induction bl as [|blk bl IH]; intros b0 k; [by destruct k|].
  destruct k as [|k]; unfold cell; simpl.
  - intros Hj. rewrite Nat.add_0_r. apply elem_of_app. left.
    by apply (link_slots_of_elem b0 0 blk j next).
  - intros Hj. apply elem_of_app. right.
    replace (b0 + S k)%nat with (S b0 + k)%nat by lia. by apply IH.
Qed.

(** A free list counts at most the items that hold a link. *)
Lemma FreeList_length p fl :
  FreeList p fl → (length fl + live_count p ≤ total_slots p)%nat.
Proof.
  intros [Hc Hnd].
  assert (fl ⊆+ link_slots p) as Hsub.
  { apply NoDup_submseteq; [done|]. intros [b i] Hin.
    destruct (chain_links _ _ _ _ Hc Hin) as [next Hn].
    apply (link_slots_from_elem 0 _ b i next Hn). }
  apply submseteq_length in Hsub.
  pose proof (link_slots_from_length 0 (m_blocks p)) as Hlen.
  unfold link_slots in Hsub. unfold live_count, total_slots, block_sizes. lia.
Qed.

End Counting.

(** On a full pool [construct] can only return the first item of the
    block it obtains. *)
Lemma construct_full_Ret {T : Type} (G M : Z) (up : Z → bool) (ctor : option T)
    (p p' : Pool T) (a : addr) :
  m_nextFree p = None →
  construct G M up ctor p = (Ret a, p') →
  a = (length (m_blocks p), 0%nat).
Proof.
  intros Hh. rewrite construct_unfold.
  destruct (allocate G M up p) as [[a1|e] p1] eqn:Ha; [|intros ?; simplify_eq].
  assert (a1 = (length (m_blocks p), 0%nat)) as ->.
  { revert Ha.
    unfold allocate, grow, set_blockSize, set_nextFree, emplace_back,
      read, bind, ret, throw, gets, modify, make_unique; simpl.
    rewrite Hh; simpl.
    destruct (up _); simpl; [|intros ?; simplify_eq].
    destruct (cell _ _) as [[next|v]|]; simpl; intros ?; by simplify_eq. }
  destruct ctor as [v|]; [|intros ?; simplify_eq].
  destruct (cell (m_blocks p1) _); intros ?; by simplify_eq.
Qed.

(** X1. On a pool whose free list is a chain of links without repetition,
    a [construct] that returns has built the object its constructor made
    in the slot it returns; that slot is the head of the free list, whose
    other items are the free list after the call, or, the free list being
    empty, the first item of the block obtained; it held no live object
    before, every object that was live is still at its address with its
    value, and no other slot became live. *)
Theorem construct_stores_object {T : Type} (G M : Z) (up : Z → bool)
    (ctor : option T) (p p' : Pool T) (a : addr) (fl : list addr) :
  FreeList p fl →
  construct G M up ctor p = (Ret a, p') →
  ∃ v, ctor = Some v ∧
       cell (m_blocks p') a = Some (Storage v) ∧
       ((∃ fl', fl = a :: fl' ∧ FreeList p' fl') ∨
        (fl = [] ∧ a = (length (m_blocks p), 0%nat))) ∧
       ¬ live p a ∧
       (∀ a' x, cell (m_blocks p) a' = Some (Storage x) →
                cell (m_blocks p') a' = Some (Storage x)) ∧
       (∀ a', a' ≠ a → live p' a' → live p a').
Proof.
  intros Hfl Hrun.
  destruct (construct_Ret _ _ _ _ _ _ _ Hrun)
    as (v & bl1 & next & -> & Hbl & Hc & Hb' & _).
  exists v. split; [done|]. split; [|split; [|split; [|split]]].
  - rewrite Hb'. apply cell_store_eq. by rewrite Hc.
  - destruct fl as [|a0 fl'].
    + right. split; [done|]. apply FreeList_nil in Hfl.
      by eapply construct_full_Ret.
    + left. destruct (construct_pop G M up (Some v) p a0 fl' Hfl)
        as (next' & _ & Heq & _ & Hok).
      cbv zeta in Heq, Hok. rewrite Heq in Hrun. injection Hrun as <- <-.
      exists fl'. split; [done|apply Hok].
  - intros [x Hx]. destruct Hbl as [-> | ->].
    + by rewrite Hc in Hx.
    + rewrite cell_app_l in Hc by eauto. by rewrite Hc in Hx.
  - intros a' x. by eapply construct_frame.
  - intros a' Hne [x Hx]. rewrite Hb', cell_store_ne in Hx by done.
    destruct Hbl as [-> | ->]; [by exists x|].
    apply cell_app_inv in Hx as [Hx|[_ Hx]]; [by exists x|].
    by apply fresh_block_no_object in Hx.
Qed.

(** X2. Objects never move. For [GrowthFactor >= 1] and
    [GrowthFactor * MaxBlockSize < 2^64], on a pool whose block size is
    between 1 and [MaxBlockSize] and whose free list is a chain of links
    without repetition, over any run of calls in which every [destroy] is
    given [nullptr] or an object live at that point, and which holds
    neither a [release] nor the [destroy] of the object itself, whatever
    else the calls do (growth, upstream failures, constructors that throw,
    other destroys), a live object stays at its address with its value;
    and the pool is again such a pool after the run. *)
Theorem objects_never_move {T : Type} (G M : Z) (os : list (op T))
    (p : Pool T) (a : addr) (x : T) :
  1 ≤ G → G * M < SizeT.modulus →
  pool_inv M p →
  destroys_live G M os p →
  cell (m_blocks p) a = Some (Storage x) →
  Forall (λ o, o ≠ Release ∧ o ≠ Destroy (Some a)) os →
  cell (m_blocks (run G M os p)) a = Some (Storage x) ∧
  pool_inv M (run G M os p).
Proof.
  intros HG HGM. revert p.
  induction os as [|o os IH]; intros p Hinv Hdl Hx Hos; simpl; [done|].
  apply Forall_cons in Hos as [[Hrel Hdes] Hos].
  cbn [destroys_live] in Hdl. destruct Hdl as [Hl Hdl].
  apply IH; [|done| |done].
  - apply (pool_inv_step G M HG HGM o p Hinv). by intros a0 ->.
  - destruct o as [up ctor|q|]; cbn [step]; [| |done].
    + destruct (construct G M up ctor p) as [r p'] eqn:Hrun; simpl.
      by eapply construct_frame.
    + destruct (destroy q p) as [r p'] eqn:Hrun; simpl.
      rewrite (destroy_frame _ _ _ _ a Hrun); [done|]. congruence.
Qed.

(** X3. [destroy] of a live object returns; its slot becomes the head of
    the free list, in front of the items that were free, so the free count
    goes up by one and the number of live objects down by one; the slot is
    no longer live, no other item is written, and the blocks and the block
    size are as before. *)
Theorem destroy_returns_slot {T : Type} (p : Pool T) (a : addr) (fl : list addr) :
  live p a → FreeList p fl →
  ∃ p', destroy (Some a) p = (Ret tt, p') ∧
        m_nextFree p' = Some a ∧
        FreeList p' (a :: fl) ∧
        has_free_count p' (S (length fl)) ∧
        (live_count p' + 1 = live_count p)%nat ∧
        ¬ live p' a ∧
        (∀ a', a' ≠ a → cell (m_blocks p') a' = cell (m_blocks p) a') ∧
        block_sizes p' = block_sizes p ∧
        m_blockSize p' = m_blockSize p.
Proof.
  intros Hlive Hfl. destruct (destroy_FreeList p a fl Hlive Hfl) as [Hrun Hfl'].
  cbv zeta in Hrun, Hfl'. destruct Hlive as [v Hv].
  eexists. split; [exact Hrun|]. simpl. split; [done|]. split; [exact Hfl'|].
  split; [exact (FreeList_free_count _ _ Hfl')|]. split; [|split; [|split; [|split]]].
  - pose proof (live_count_store (m_blocks p) a (Storage v) (Link (m_nextFree p))
                  (m_blockSize p) (Some a) (m_blockSize p) (m_nextFree p) Hv) as Hc.
    simpl in Hc. destruct p; simpl in *. lia.
  - intros [x Hx]. simpl in Hx. rewrite cell_store_eq in Hx by (by rewrite Hv). done.
  - intros a' Hne. by apply cell_store_ne.
  - unfold block_sizes; simpl. by rewrite store_block_sizes.
  - done.
Qed.

(** X4. On a pool with a free item, [construct] followed by the [destroy]
    of the object it returned leaves the pool exactly as it was: same
    blocks, same items, same free list. *)
Theorem construct_then_destroy_restores {T : Type} (G M : Z) (up : Z → bool)
    (v : T) (p : Pool T) (a : addr) (fl : list addr) :
  FreeList p (a :: fl) →
  ∃ p1, construct G M up (Some v) p = (Ret a, p1) ∧
        live p1 a ∧
        destroy (Some a) p1 = (Ret tt, p).
Proof.
  intros Hfl.
  destruct (construct_pop G M up (Some v) p a fl Hfl) as (next & Hc & Hrun & _ & _).
  destruct (FreeList_cons _ _ _ Hfl) as (_ & Hh & _).
  cbv zeta in Hrun. eexists. split; [exact Hrun|].
  assert (cell (store (m_blocks p) a (Storage v)) a = Some (Storage v)) as Hv.
  { apply cell_store_eq. by rewrite Hc. }
  split; [by exists v|].
  erewrite destroy_live by (simpl; exact Hv). simpl.
  rewrite store_store, store_id by done.
  destruct p; simpl in *. by rewrite Hh.
Qed.

(** X5. The free list never holds more items than the blocks have items
    without an object: free count plus live objects is at most the number
    of slots, so the loop of [print] ends within that many steps and counts
    the free list. *)
Theorem free_count_within_capacity {T : Type} (p : Pool T) (fl : list addr) :
  FreeList p fl →
  (length fl + live_count p ≤ total_slots p)%nat ∧
  freeCount (total_slots p) p = Some (length fl).
Proof.
  intros Hfl. pose proof (FreeList_length p fl Hfl) as Hle.
  split; [done|]. apply (FreeList_free_count p fl Hfl). lia.
Qed.

Lemma chain_head {T : Type} (bl : list (list (Item T))) h fl :
  chain bl h fl → h = head fl.
Proof. destruct fl; simpl; [done|]. by intros [-> _]. Qed.

(** As many [construct] calls as the front part [l] of the free list has
    items return these items in order, without growth. *)
Lemma construct_all_pops {T : Type} (G M : Z) (up : Z → bool) (vs : list T)
    (p : Pool T) (l fl : list addr) :
  FreeList p (l ++ fl) → length vs = length l →
  ∃ p', construct_all G M up vs p = (Ret l, p') ∧
        FreeList p' fl ∧
        block_sizes p' = block_sizes p ∧
        m_blockSize p' = m_blockSize p.
Proof.
  revert vs p. induction l as [|a l IH]; intros vs p Hfl Hlen.
  - destruct vs; [|done]. exists p. by unfold construct_all, ret.
  - destruct vs as [|v vs]; [done|]. simpl in Hfl, Hlen.
    destruct (construct_pop G M up (Some v) p a (l ++ fl) Hfl)
      as (next & Hc & Hrun & _ & Hok).
    cbv zeta in Hrun, Hok.
    destruct (IH vs _ (Hok v) ltac:(lia)) as (p' & Hall & Hfl' & Hb & Hs).
    exists p'. cbn [construct_all]. unfold bind, ret. rewrite Hrun, Hall.
    split; [done|]. split; [done|]. split; [|done].
    rewrite Hb. unfold block_sizes; simpl. by rewrite store_block_sizes.
Qed.

(** X6. Reuse is last-in first-out over any number of objects: after
    distinct live objects have been destroyed, as many [construct] calls
    return their slots in the reverse order of the destroys, without
    asking the upstream allocator, and leave the free list, the blocks and
    the block size as they were before the destroys. *)
Theorem destroy_all_then_construct_all {T : Type} (G M : Z) (up : Z → bool)
    (hs : list addr) (vs : list T) (p : Pool T) (fl : list addr) :
  NoDup hs → Forall (live p) hs → FreeList p fl →
  length vs = length hs →
  ∃ p1 p2,
    destroy_all hs p = (Ret tt, p1) ∧
    construct_all G M up vs p1 = (Ret (reverse hs), p2) ∧
    FreeList p2 fl ∧
    m_nextFree p2 = m_nextFree p ∧
    block_sizes p2 = block_sizes p ∧
    m_blockSize p2 = m_blockSize p.
Proof.
  intros Hnd Hlive Hfl Hlen.
  destruct (destroy_all_spec hs p fl Hnd Hlive Hfl) as (p1 & Hd & Hfl1 & Hb1 & Hs1).
  destruct (construct_all_pops G M up vs p1 (reverse hs) fl Hfl1)
    as (p2 & Hc & Hfl2 & Hb2 & Hs2).
  { by rewrite length_reverse. }
  exists p1, p2. split; [done|]. split; [done|]. split; [done|].
  split; [|split; congruence].
  destruct Hfl as [Hch _], Hfl2 as [Hch2 _].
  by rewrite (chain_head _ _ _ Hch), (chain_head _ _ _ Hch2).
Qed.

(** X7. A pool built with initial size [size] serves its first [size]
    [construct] calls from its first block, in address order, whatever the
    upstream allocator would answer; after them the pool is full and still
    has that one block. *)
Theorem fresh_pool_serves_in_order {T : Type} (G M : Z) (up0 up : Z → bool)
    (size : Z) (vs : list T) (p0 : Pool T) :
  Pool_new M up0 size = Ret p0 →
  length vs = Z.to_nat size →
  ∃ p', construct_all G M up vs p0 = (Ret (pair 0%nat <$> seq 0 (Z.to_nat size)), p') ∧
        full p' = true ∧
        block_sizes p' = [Z.to_nat size] ∧
        m_blockSize p' = size.
Proof.
  intros [Hsize ->]%Pool_new_inv Hlen.
  destruct (Pool_new_state (T:=T) size ltac:(lia)) as (Hfl & Hb & _).
  cbv zeta in Hfl, Hb.
  destruct (construct_all_pops G M up vs
              (mkPool [fresh_block 0 size] size (Some (0%nat, 0%nat)))
              (pair 0%nat <$> seq 0 (Z.to_nat size)) [])
    as (p' & Hall & Hfl' & Hb' & Hs'); [by rewrite app_nil_r| |].
  { by rewrite length_fmap, length_seq. }
  exists p'. split; [done|]. apply FreeList_nil in Hfl'.
  split; [unfold full; by rewrite Hfl'|]. split; [by rewrite Hb', Hb|done].
Qed.

(** X8. For [GrowthFactor >= 1] and [GrowthFactor * MaxBlockSize < 2^64],
    where the product of line 128 does not wrap: once the block size has
    reached [MaxBlockSize] it stays there, and over any run of calls every
    block obtained from the upstream allocator has exactly [MaxBlockSize]
    items. *)
Theorem block_size_cap_absorbing {T : Type} (G M : Z) (os : list (op T))
    (p : Pool T) :
  1 ≤ G → G * M < SizeT.modulus → 1 ≤ M →
  m_blockSize p = M →
  m_blockSize (run G M os p) = M ∧
  Forall (λ s, s = Z.to_nat M) (allocated G M os p).
Proof.
  intros HG HGM HM Hbs.
  destruct (allocated_spec G M HG HGM os p ltac:(lia))
    as (Hall & _ & Hb & Hm & _).
  split; [lia|]. eapply Forall_impl; [exact Hall|]. simpl. lia.
Qed.

Section Balance.
Context {T : Type}.
Variables G M : Z.
Hypothesis growth_factor_pos : 1 ≤ G.
Hypothesis growth_in_size_t : G * M < SizeT.modulus.
Implicit Types (p : Pool T) (a : addr) (fl : list addr) (up : Z → bool).

Lemma Pool_new_balanced up size p0 :
  Pool_new M up size = Ret p0 → balanced p0 ∧ live_count p0 = 0%nat.
Proof.
  intros [Hsize ->]%Pool_new_inv.
  destruct (Pool_new_state (T:=T) size ltac:(lia)) as (Hfl & Hb & Hno).
  cbv zeta in Hfl, Hb, Hno.
  pose proof (live_count_none _ Hno) as H0. split; [|done].
  eexists. split; [exact Hfl|].
  rewrite H0, length_fmap, length_seq. unfold total_slots. rewrite Hb. simpl. lia.
Qed.

(** A [construct] that returns takes one free or new slot for one object. *)
Lemma construct_balanced up ctor p a p' :
  1 ≤ m_blockSize p ≤ M → balanced p →
  construct G M up ctor p = (Ret a, p') →
  balanced p' ∧ live_count p' = S (live_count p).
Proof.
  intros Hbs (fl & Hfl & Hcount) Hrun.
  pose proof (grown_size_bounds G M growth_factor_pos growth_in_size_t p Hbs) as Hgs.
  destruct fl as [|a0 fl].
  - apply FreeList_nil in Hfl as Hh.
    destruct (up (grown_size G M p)) eqn:Hup;
      [|by rewrite construct_bad_alloc in Hrun].
    destruct (construct_grow G M up ctor p Hh Hup ltac:(lia)) as (Heq & _ & Hok).
    cbv zeta in Heq, Hok. rewrite Heq in Hrun.
    destruct ctor as [v|]; [|done]. injection Hrun as <- <-.
    assert (∀ bs nf,
              live_count
                (mkPool (m_blocks p ++
                           [<[0%nat:=Storage v]>
                              (fresh_block (length (m_blocks p)) (grown_size G M p))])
                        bs nf)
              = S (live_count p)) as Hlc.
    { intros bs nf.
      rewrite (live_count_app _ _ _ _ (m_blockSize p) (m_nextFree p)).
      pose proof (count_objects_insert
                    (fresh_block (T:=T) (length (m_blocks p)) (grown_size G M p))
                    0 _ (Storage v)
                    (fresh_block_lookup (length (m_blocks p)) (grown_size G M p) 0
                       ltac:(lia))) as Hins.
      rewrite count_objects_fresh in Hins. simpl in Hins.
      destruct p; simpl in *. lia. }
    split; [|apply Hlc]. eexists. split; [apply Hok|].
    rewrite Hlc, length_fmap, length_seq.
    destruct p as [bl bs nf]. simpl in *.
    rewrite (total_slots_app _ _ _ _ bs nf), length_insert, fresh_block_length.
    lia.
  - destruct (construct_pop G M up ctor p a0 fl Hfl) as (next & Hc & Heq & _ & Hok).
    cbv zeta in Heq, Hok. rewrite Heq in Hrun.
    destruct ctor as [v|]; [|done]. injection Hrun as <- <-.
    pose proof (live_count_store (m_blocks p) a0 (Link next) (Storage v)
                  (m_blockSize p) next (m_blockSize p) (m_nextFree p) Hc) as Hlc.
    simpl in Hlc, Hcount.
    assert (live_count (mkPool (store (m_blocks p) a0 (Storage v)) (m_blockSize p) next)
            = S (live_count p)) as Hlc'.
    { destruct p; simpl in *. lia. }
    split; [|exact Hlc']. exists fl. split; [apply Hok|].
    rewrite Hlc'. destruct p as [bl bs nf]. simpl in *.
    rewrite (total_slots_store _ _ _ _ _ bs nf). lia.
Qed.

(** A [destroy] that returns was given [nullptr] or a live object. *)
Lemma destroy_Ret q p u p' :
  destroy q p = (Ret u, p') →
  (q = None ∧ p' = p) ∨ (∃ a, q = Some a ∧ live p a).
Proof.
  destruct q as [a|]; [|unfold destroy, ret; intros ?; simplify_eq; by left].
  unfold destroy, deallocate, set_nextFree, read, write,
    bind, ret, throw, gets, modify; simpl.
  destruct (cell (m_blocks p) a) as [[next|v]|] eqn:Hc; simpl;
    try by (intros ?; simplify_eq).
  intros _. right. exists a. split; [done|]. by exists v.
Qed.

Lemma destroy_balanced q p u p' :
  balanced p → destroy q p = (Ret u, p') → balanced p'.
Proof.
  intros (fl & Hfl & Hcount) Hrun.
  destruct (destroy_Ret _ _ _ _ Hrun) as [[-> ->]|(a & -> & Hlive)]; [by exists fl|].
  destruct (destroy_FreeList p a fl Hlive Hfl) as [Heq Hfl'].
  cbv zeta in Heq, Hfl'. rewrite Heq in Hrun. injection Hrun as _ <-.
  destruct Hlive as [v Hv].
  pose proof (live_count_store (m_blocks p) a (Storage v) (Link (m_nextFree p))
                (m_blockSize p) (Some a) (m_blockSize p) (m_nextFree p) Hv) as Hlc.
  eexists. split; [exact Hfl'|].
  destruct p as [bl bs nf]. simpl in *.
  rewrite (total_slots_store _ _ _ _ _ bs nf). lia.
Qed.

Lemma release_balanced p : balanced (release p).2.
Proof. exists []. split; [by apply FreeList_nil|done]. Qed.

(** A [construct] whose constructor returns loses no slot, also when the
    upstream allocator refuses the block. *)
Lemma construct_step_balanced up v p :
  1 ≤ m_blockSize p ≤ M → balanced p →
  balanced (step G M (Construct up (Some v)) p).
Proof.
  intros Hbs Hbal. cbn [step].
  destruct (construct G M up (Some v) p) as [[a|e] p'] eqn:Hrun; simpl.
  { by destruct (construct_balanced _ _ _ _ _ Hbs Hbal Hrun). }
  destruct Hbal as (fl & Hfl & Hcount).
  pose proof (grown_size_bounds G M growth_factor_pos growth_in_size_t p Hbs) as Hgs.
  destruct fl as [|a0 fl].
  - apply FreeList_nil in Hfl as Hh.
    destruct (up (grown_size G M p)) eqn:Hup.
    + destruct (construct_grow G M up (Some v) p Hh Hup ltac:(lia)) as (Heq & _).
      cbv zeta in Heq. rewrite Heq in Hrun. done.
    + rewrite construct_bad_alloc in Hrun by done. injection Hrun as _ <-.
      exists []. split; [by apply FreeList_nil|].
      destruct p; simpl in *. exact Hcount.
  - destruct (construct_pop G M up (Some v) p a0 fl Hfl) as (next & _ & Heq & _).
    cbv zeta in Heq. rewrite Heq in Hrun. done.
Qed.

Lemma run_balanced os p :
  1 ≤ m_blockSize p ≤ M → balanced p →
  Forall ctor_returns os → destroys_live G M os p →
  balanced (run G M os p).
Proof.
  revert p. induction os as [|o os IH]; intros p Hbs Hbal Hct Hdl; simpl; [done|].
  apply Forall_cons in Hct as [Ho Hct].
  cbn [destroys_live] in Hdl. destruct Hdl as [Hl Hdl].
  destruct (step_sizes G M growth_factor_pos growth_in_size_t o p Hbs) as (Hbs' & _).
  cbv zeta in Hbs'. apply IH; [done| |done|done].
  destruct o as [up ctor|[a|]|].
  - destruct Ho as [v ->]. by apply construct_step_balanced.
  - cbn [step]. destruct Hl as [v Hv].
    pose proof (destroy_live p a v Hv) as Hrun. rewrite Hrun.
    eapply destroy_balanced; [exact Hbal|exact Hrun].
  - exact Hbal.
  - apply release_balanced.
Qed.

End Balance.

(** X9. No slot is lost. For [GrowthFactor >= 1] and
    [GrowthFactor * MaxBlockSize < 2^64]: the constructor builds a pool in
    which every slot is on the free list, and over any run of [construct],
    [destroy] and [release] calls in which no constructor throws and every
    [destroy] is given [nullptr] or an object live at that point, the
    upstream allocator providing or refusing any block, every slot is
    either on the free list or holds a live object, so the free count is
    the number of slots minus the number of live objects. *)
Theorem no_slot_lost {T : Type} (G M : Z) (up : Z → bool) (size : Z)
    (p0 : Pool T) (os : list (op T)) :
  1 ≤ G → G * M < SizeT.modulus →
  Pool_new M up size = Ret p0 →
  Forall ctor_returns os →
  destroys_live G M os p0 →
  let p := run G M os p0 in
  balanced p ∧
  (live_count p ≤ total_slots p)%nat ∧
  has_free_count p (total_slots p - live_count p).
Proof.
  intros HG HGM Hnew Hct Hdl. cbv zeta.
  destruct (Pool_new_balanced M up size p0 Hnew) as [Hbal _].
  destruct (Pool_new_inv M up size p0 Hnew) as [Hsize Hp0].
  assert (1 ≤ m_blockSize p0 ≤ M) as Hbs by (subst p0; simpl; lia).
  pose proof (run_balanced G M HG HGM os p0 Hbs Hbal Hct Hdl) as Hrun.
  split; [done|]. destruct Hrun as (fl & Hfl & Hcount).
  split; [lia|]. replace (_ - _)%nat with (length fl) by lia.
  by apply FreeList_free_count.
Qed.

(** X10. [MassAllocPool] runs to its end for every number of iterations
    when the upstream allocator provides the blocks: every [destroy] is
    given a live object, and at the end no object is live and every slot
    of every block is on the free list again. *)
Theorem MassAllocPool_completes {T : Type} (up : Z → bool) (n : nat) (dflt : T) :
  (∀ k, up k = true) →
  ∃ p, TestPool.MassAllocPool up n dflt = Ret p ∧
       (n ≤ total_slots p)%nat ∧
       live_count p = 0%nat ∧
       has_free_count p (total_slots p).
Proof.
  intros Hup. unfold TestPool.MassAllocPool, TestPool.pool_init_block_size.
  rewrite (Pool_new_Ret 1024 up 8 ltac:(lia) (Hup 8)).
  destruct (Pool_new_state (T:=T) 8 ltac:(lia)) as (Hfl0 & Hb0 & _).
  cbv zeta in Hfl0, Hb0.
  set (p0 := mkPool (T:=T) [fresh_block 0 8] 8 (Some (0%nat, 0%nat))) in *.
  assert (1 ≤ m_blockSize p0 ≤ 1024) as Hbs by (simpl; lia).
  destruct (construct_all_spec 2 1024 ltac:(lia) eq_refl up (replicate n dflt)
              p0 _ Hbs Hfl0 Hup)
    as (hs & p1 & fl1 & Hall & Hseq & Hlen & Hfl1 & Hcount & Htot).
  destruct (construct_seq_spec 2 1024 ltac:(lia) eq_refl
              ((λ v, (up, Some v)) <$> replicate n dflt) p0 _ Hbs Hfl0)
    as (Hnd & Hlive & _ & _).
  cbv zeta in Hnd, Hlive. rewrite Hseq in Hnd, Hlive. simpl in Hnd, Hlive.
  destruct (destroy_all_spec hs p1 fl1 Hnd Hlive Hfl1) as (p2 & Hd & Hfl2 & Hb2 & _).
  rewrite Hall, Hd. exists p2. split; [done|].
  assert (total_slots p0 = 8%nat) as Ht0 by (unfold total_slots; by rewrite Hb0).
  assert (total_slots p2 = total_slots p1) as Ht2 by (unfold total_slots; by rewrite Hb2).
  rewrite length_fmap, length_seq, length_replicate in Hcount.
  rewrite length_replicate in Hlen.
  pose proof (FreeList_length p2 _ Hfl2) as Hle.
  rewrite length_app, length_reverse in Hle.
  assert (length (reverse hs ++ fl1) = total_slots p2) as Hfree.
  { rewrite length_app, length_reverse. simpl in Hcount. lia. }
  split; [simpl in Hcount; lia|]. split; [simpl in Hcount; lia|].
  rewrite <- Hfree. by apply FreeList_free_count.
Qed.

(** * Further properties of the multipool and of the test program *)

(** X12. [release_all()] leaves every member pool as its own [release()]
    does: without a block, full, its block size kept; and the pool of a
    type is what calling [release<T>()] for the types of a list holding it,
    in any order and with repetitions, makes it. *)
Theorem release_all_is_every_release {I : Type} `{EqDecision I} (Ts : I → Type)
    (mp : Multipool.t Ts) :
  let mp' := (Multipool.release_all Ts mp).2 in
  (Multipool.release_all Ts mp).1 = Ret tt ∧
  (∀ i, Multipool.get Ts i mp' = (release (Multipool.get Ts i mp)).2 ∧
        m_blocks (Multipool.get Ts i mp') = [] ∧
        full (Multipool.get Ts i mp') = true ∧
        m_blockSize (Multipool.get Ts i mp') = m_blockSize (Multipool.get Ts i mp)) ∧
  (∀ (tys : list I) i,
     Multipool.get Ts i (foldl (λ q t, (Multipool.release Ts t q).2) mp tys) =
       if decide (i ∈ tys) then Multipool.get Ts i mp' else Multipool.get Ts i mp).
Proof.
  cbv zeta. split; [done|]. split; [done|].
  assert (∀ (q : Multipool.t Ts) i,
            Multipool.get Ts i (Multipool.release_all Ts q).2 =
              (release (Multipool.get Ts i q)).2) as Hall by done.
  intros tys i. revert mp. induction tys as [|t tys IH]; intros mp; cbn [foldl].
  - by rewrite decide_False by apply not_elem_of_nil.
  - rewrite IH, !Hall.
    destruct (Multipool_on_pool Ts t release mp) as (_ & Ht & Ho).
    fold (Multipool.release Ts t mp) in Ht, Ho.
    destruct (decide (i = t)) as [->|Hit].
    + rewrite (decide_True (P := t ∈ t :: tys)) by apply list_elem_of_here.
      rewrite Ht. by destruct (decide (t ∈ tys)).
    + rewrite (Ho i) by congruence.
      destruct (decide (i ∈ tys)) as [Hin|Hnin].
      * by rewrite decide_True by (by apply list_elem_of_further).
      * rewrite decide_False; [done|].
        intros [?|?]%elem_of_cons; done.
Qed.

Lemma construct_live_iff {T : Type} (G M : Z) (up : Z → bool) (ctor : option T)
    (p p' : Pool T) (a : addr) :
  construct G M up ctor p = (Ret a, p') →
  ¬ live p a ∧ ∀ a', live p' a' ↔ a' = a ∨ live p a'.
Proof.
  intros Hrun.
  destruct (construct_Ret _ _ _ _ _ _ _ Hrun)
    as (v & bl1 & next & -> & Hbl & Hc & Hb' & _).
  assert (¬ live p a) as Hfresh.
  { intros [x Hx]. destruct Hbl as [-> | ->].
    - by rewrite Hc in Hx.
    - rewrite cell_app_l in Hc by eauto. by rewrite Hc in Hx. }
  split; [done|]. intros a'. split.
  - intros [x Hx]. destruct (decide (a' = a)) as [->|Hne]; [by left|right].
    rewrite Hb', cell_store_ne in Hx by done.
    destruct Hbl as [-> | ->]; [by exists x|].
    apply cell_app_inv in Hx as [Hx|[_ Hx]]; [by exists x|].
    by apply fresh_block_no_object in Hx.
  - intros [->|[x Hx]].
    + exists v. rewrite Hb'. apply cell_store_eq. by rewrite Hc.
    + exists x. by eapply construct_frame.
Qed.

Lemma destroy_live_iff {T : Type} (p p' : Pool T) (a : addr) u :
  destroy (Some a) p = (Ret u, p') →
  ∀ a', live p' a' ↔ a' ≠ a ∧ live p a'.
Proof.
  intros Hrun a'.
  destruct (destroy_Ret _ _ _ _ Hrun) as [[? _]|(a0 & [= <-] & [v Hv])]; [done|].
  rewrite (destroy_live p a v Hv) in Hrun. injection Hrun as _ <-.
  unfold live; simpl. destruct (decide (a' = a)) as [->|Hne].
  - rewrite cell_store_eq by (by rewrite Hv). split; [by intros [? ?]|by intros [? _]].
  - rewrite cell_store_ne by done. split; [by intros ?|by intros [_ ?]].
Qed.

(** X13. The multipool of the test program is built exactly when the
    common initial size is between 1 and 1024 (and the upstream allocator
    provides the blocks); the assertion of the member pools fails exactly
    for 0 and for sizes above 1024; every member pool then has one block of
    that size, all of it free. *)
Theorem DataMultipool_new_contract (Obj : TestPool.ty → Type) (up : Z → bool) (n : Z) :
  0 ≤ n →
  (TestPool.DataMultipool_new Obj up n = Throw assertion_failure ↔ n = 0 ∨ 1024 < n) ∧
  (1 ≤ n ≤ 1024 → up n = true →
   ∃ mp, TestPool.DataMultipool_new Obj up n = Ret mp ∧
         ∀ t, Pool_new 1024 up n = Ret (Multipool.get Obj t mp) ∧
              block_sizes (Multipool.get Obj t mp) = [Z.to_nat n] ∧
              has_free_count (Multipool.get Obj t mp) (Z.to_nat n) ∧
              live_count (Multipool.get Obj t mp) = 0%nat).
Proof.
  intros Hn. unfold TestPool.DataMultipool_new, Multipool.MaxBlockSize. split.
  - destruct (decide (0 < n ≤ 1024)) as [Hr|Hr].
    + split; [|lia]. destruct (up n) eqn:Hup.
      * by rewrite !(Pool_new_Ret 1024 up n Hr Hup).
      * unfold Pool_new, make_unique.
        rewrite (proj2 (Z.ltb_lt _ _) (proj1 Hr)), (proj2 (Z.leb_le _ _) (proj2 Hr)), Hup.
        done.
    + split; [lia|]. intros _.
      by rewrite (proj2 (Pool_new_assert (T:=Obj TestPool.A) 1024 up n) Hr).
  - intros Hr Hup. rewrite !(Pool_new_Ret 1024 up n ltac:(lia) Hup).
    eexists. split; [reflexivity|].
    intros t.
    assert (∀ T : Type,
      let p : Pool T := mkPool [fresh_block 0 n] n (Some (0%nat, 0%nat)) in
      Pool_new 1024 up n = Ret p ∧ block_sizes p = [Z.to_nat n] ∧
      has_free_count p (Z.to_nat n) ∧ live_count p = 0%nat) as Hall.
    { intros T p.
      pose proof (Pool_new_Ret (T:=T) 1024 up n ltac:(lia) Hup) as Hnew.
      destruct (Pool_new_state (T:=T) n ltac:(lia)) as (Hfl & Hb & Hno).
      cbv zeta in Hfl, Hb, Hno.
      split; [done|]. split; [done|]. split; [|by apply live_count_none].
      apply FreeList_free_count in Hfl.
      by rewrite length_fmap, length_seq in Hfl. }
    unfold Multipool.get. destruct t; apply Hall.
Qed.

Section MixedAllocProofs.
Import TestPool.
Context (Obj : ty → Type) (dflt : ∀ t, Obj t).
Variable up : Z → bool.
Hypothesis upstream_provides : ∀ k, up k = true.
Implicit Types (mp : Multipool.t Obj) (ptrs : list base_ptr) (q : base_ptr).

Lemma set_same t (p : Pool (Obj t)) mp : Multipool.set Obj t p mp t = p.
Proof. apply (Multipool_get_set_eq Obj t p mp). Qed.

Lemma set_other t t' (p : Pool (Obj t)) mp :
  t ≠ t' → Multipool.set Obj t p mp t' = mp t'.
Proof. apply (Multipool_get_set_ne Obj t t' p mp). Qed.

(** Destroying one of the pointers of [ptrs] keeps the invariant for the
    others. *)
Lemma delete_ptr_inv mp l1 q l2 :
  mixed_inv Obj (mp, l1 ++ q :: l2) →
  ∃ mp', delete_ptr Obj q mp = (Ret tt, mp') ∧ mixed_inv Obj (mp', l1 ++ l2).
Proof.
  destruct q as [t a]. intros (Hpools & Hnd & Hiff). simpl in Hpools, Hnd, Hiff.
  rewrite <- Permutation_middle in Hnd. apply NoDup_cons in Hnd as [Hni Hnd].
  assert (live (mp t) a) as Hlive.
  { apply Hiff. rewrite <- Permutation_middle. apply list_elem_of_here. }
  destruct (Hpools t) as [Hbs Hbal]. destruct Hlive as [v Hv].
  pose proof (destroy_live (mp t) a v Hv) as Hrun.
  set (p' := mkPool (store (m_blocks (mp t)) a (Link (m_nextFree (mp t))))
                    (m_blockSize (mp t)) (Some a)) in Hrun.
  exists (Multipool.set Obj t p' mp). split.
  { unfold delete_ptr, Multipool.destroy, Multipool.on_pool, Multipool.get.
    cbn [fst snd]. by rewrite Hrun. }
  split; [|split; [done|]]; simpl.
  - intros t'. destruct (decide (t = t')) as [<-|Hne].
    + rewrite set_same. split; [done|]. by eapply destroy_balanced.
    + rewrite set_other by done. apply Hpools.
  - intros t' a'. destruct (decide (t = t')) as [<-|Hne].
    + rewrite set_same, (destroy_live_iff _ _ _ _ Hrun a'), <- Hiff.
      rewrite <- Permutation_middle, elem_of_cons. split.
      * intros Hin. split; [|by right]. intros ->. done.
      * intros [Ha' [[= ->]|Hin]]; done.
    + rewrite set_other, <- Hiff by done.
      rewrite <- Permutation_middle, elem_of_cons. split; [by right|].
      intros [[= -> _]|Hin]; done.
Qed.

Lemma push_back_new_inv t (st : mixed_state Obj) :
  mixed_inv Obj st →
  ∃ st', push_back_new Obj dflt up t st = Ret st' ∧ mixed_inv Obj st' ∧
         length st'.2 = S (length st.2).
Proof.
  destruct st as [mp ptrs]. intros (Hpools & Hnd & Hiff). simpl in Hpools, Hnd, Hiff.
  destruct (Hpools t) as [Hbs Hbal]. pose proof Hbal as (fl & Hfl & Hcount).
  destruct (construct_returns Multipool.GrowthFactor Multipool.MaxBlockSize
              ltac:(done) ltac:(reflexivity) up (dflt t) (mp t) fl Hbs Hfl
              upstream_provides) as (a & p' & Hrun).
  destruct (construct_step Multipool.GrowthFactor Multipool.MaxBlockSize
              ltac:(done) ltac:(reflexivity) _ _ _ _ _ _ Hbs Hfl Hrun)
    as (Hbs' & _).
  destruct (construct_balanced Multipool.GrowthFactor Multipool.MaxBlockSize
              ltac:(done) ltac:(reflexivity) _ _ _ _ _ Hbs Hbal Hrun) as [Hbal' _].
  destruct (construct_live_iff _ _ _ _ _ _ _ Hrun) as [Hfresh Hlive].
  exists (Multipool.set Obj t p' mp, ptrs ++ [(t, a)]). split.
  { unfold push_back_new, Multipool.construct, Multipool.on_pool, Multipool.get.
    cbn [fst snd]. by rewrite Hrun. }
  split; [|simpl; rewrite length_app; simpl; lia].
  split; [|split]; simpl.
  - intros t'. destruct (decide (t = t')) as [<-|Hne].
    + by rewrite set_same.
    + rewrite set_other by done. apply Hpools.
  - apply NoDup_app. split; [done|]. split; [|apply NoDup_singleton].
    intros q Hq ->%list_elem_of_singleton. by apply Hiff in Hq.
  - intros t' a'. rewrite elem_of_app, list_elem_of_singleton.
    destruct (decide (t = t')) as [<-|Hne].
    + rewrite set_same, Hlive, Hiff. split.
      * intros [?|[= ->]]; eauto.
      * intros [->|?]; eauto.
    + rewrite set_other, Hiff by done. split; [|by left].
      intros [?|[= -> _]]; done.
Qed.

Lemma pop_back_inv (st : mixed_state Obj) :
  mixed_inv Obj st → (0 < length st.2)%nat →
  ∃ st', pop_back Obj st = Ret st' ∧ mixed_inv Obj st' ∧
         length st'.2 = (length st.2 - 1)%nat.
Proof.
  destruct st as [mp ptrs]. simpl.
  destruct ptrs as [|q l _] using rev_ind; [simpl; lia|].
  intros Hinv _.
  destruct (delete_ptr_inv mp l q [] Hinv) as (mp' & Hdel & Hinv').
  rewrite app_nil_r in Hinv'.
  exists (mp', l). unfold pop_back; cbn [fst snd].
  rewrite last_snoc, Hdel, removelast_last.
  split; [done|]. split; [done|]. simpl. rewrite length_app. simpl. lia.
Qed.

Lemma mixed_case_inv val (st : mixed_state Obj) :
  mixed_inv Obj st →
  ∃ st', mixed_case Obj dflt up val st = Ret st' ∧ mixed_inv Obj st'.
Proof.
  intros Hinv.
  assert (∀ t, ∃ st', push_back_new Obj dflt up t st = Ret st' ∧ mixed_inv Obj st')
    as Hpush.
  { intros t. destruct (push_back_new_inv t st Hinv) as (st' & ? & ? & _). eauto. }
  assert (∃ st',
            (if (4 <? length st.2)%nat
             then and_then Obj
                    (and_then Obj (and_then Obj (pop_back Obj st) (pop_back Obj))
                       (pop_back Obj))
                    (pop_back Obj)
             else Ret st) = Ret st' ∧ mixed_inv Obj st') as Hdefault.
  { destruct (Nat.ltb_spec 4 (length st.2)) as [Hlen|Hlen]; [|by eauto].
    destruct (pop_back_inv st Hinv ltac:(lia)) as (st1 & -> & Hinv1 & Hlen1).
    destruct (pop_back_inv st1 Hinv1 ltac:(lia)) as (st2 & Hpop2 & Hinv2 & Hlen2).
    destruct (pop_back_inv st2 Hinv2 ltac:(lia)) as (st3 & Hpop3 & Hinv3 & Hlen3).
    destruct (pop_back_inv st3 Hinv3 ltac:(lia)) as (st4 & Hpop4 & Hinv4 & Hlen4).
    exists st4. simpl. rewrite Hpop2. simpl. rewrite Hpop3. simpl. by rewrite Hpop4. }
  unfold mixed_case.
  destruct val as [|p|p]; [apply Hpush| |apply Hdefault].
  destruct p as [p|p|]; [| |apply Hpush];
    destruct p; first [apply Hpush|apply Hdefault].
Qed.

Lemma mixed_loop_inv vals (st : mixed_state Obj) :
  mixed_inv Obj st →
  ∃ st', mixed_loop Obj dflt up vals st = Ret st' ∧ mixed_inv Obj st'.
Proof.
  revert st. induction vals as [|val vals IH]; intros st Hinv; simpl; [by eauto|].
  destruct (mixed_case_inv val st Hinv) as (st1 & -> & Hinv1). simpl.
  by apply IH.
Qed.

Lemma destroy_ptrs_inv ptrs mp :
  mixed_inv Obj (mp, ptrs) →
  ∃ mp', destroy_ptrs Obj ptrs mp = Ret mp' ∧ mixed_inv Obj (mp', []).
Proof.
  revert mp. induction ptrs as [|q ptrs IH]; intros mp Hinv; cbn [destroy_ptrs];
    [by eauto|].
  destruct (delete_ptr_inv mp [] q ptrs Hinv) as (mp' & -> & Hinv').
  by apply IH.
Qed.

End MixedAllocProofs.

(** X14. [MixedPoolAlloc] runs to its end for every array of values, the
    upstream allocator providing the blocks, on a multipool whose pools
    have lost no slot and hold no object (as the constructor builds them):
    no [pop_back] is made on an empty vector, every pointer destroyed is a
    live object of the pool of its type, and at the end no object is live
    in any pool and every slot is on its free list again; [release_all()]
    then leaves every pool without a block. *)
Theorem MixedPoolAlloc_completes (Obj : TestPool.ty → Type)
    (dflt : ∀ t, Obj t) (up : Z → bool) (randomVals : list Z)
    (mp : Multipool.t Obj) :
  (∀ k, up k = true) →
  (∀ t, 1 ≤ m_blockSize (mp t) ≤ 1024 ∧ balanced (mp t) ∧ ∀ a, ¬ live (mp t) a) →
  ∃ mp', TestPool.MixedPoolAlloc Obj dflt up randomVals mp = Ret mp' ∧
         (∀ t, (∀ a, ¬ live (mp' t) a) ∧
               live_count (mp' t) = 0%nat ∧
               has_free_count (mp' t) (total_slots (mp' t)) ∧
               1 ≤ m_blockSize (mp' t) ≤ 1024) ∧
         ∃ mp'', TestPool.TestMixedAlloc_pooled Obj dflt up randomVals mp = Ret mp'' ∧
                 ∀ t, m_blocks (mp'' t) = [].
Proof.
  intros Hup Hmp.
  assert (TestPool.mixed_inv Obj (mp, [])) as Hinv.
  { split; [|split; [apply NoDup_nil_2|]]; simpl.
    - intros t. destruct (Hmp t) as (? & ? & _). done.
    - intros t a. split; [by intros ?%elem_of_nil|].
      intros Hlive. by destruct (Hmp t) as (_ & _ & Hno); destruct (Hno a). }
  destruct (mixed_loop_inv Obj dflt up Hup randomVals _ Hinv) as ([mp1 ptrs] & Hloop & Hinv1).
  destruct (destroy_ptrs_inv Obj ptrs mp1 Hinv1) as (mp' & Hd & (Hpools & _ & Hiff)).
  simpl in Hpools, Hiff.
  assert (TestPool.MixedPoolAlloc Obj dflt up randomVals mp = Ret mp') as Hrun.
  { unfold TestPool.MixedPoolAlloc. by rewrite Hloop. }
  exists mp'. split; [done|]. split.
  - intros t. destruct (Hpools t) as [Hbs (fl & Hfl & Hcount)].
    assert (∀ a, ¬ live (mp' t) a) as Hno.
    { intros a Hlive. apply Hiff in Hlive. by apply elem_of_nil in Hlive. }
    pose proof (live_count_none _ Hno) as H0.
    split; [done|]. split; [done|]. split; [|done].
    replace (total_slots (mp' t)) with (length fl) by lia.
    by apply FreeList_free_count.
  - eexists. unfold TestPool.TestMixedAlloc_pooled. rewrite Hrun. split; [done|]. done.
Qed.

Lemma grown_power (G M size : Z) (k : nat) :
  1 ≤ G → 1 ≤ size ≤ M →
  Z.min (G * Z.min (G ^ Z.of_nat k * size) M) M =
    Z.min (G ^ Z.of_nat (S k) * size) M.
Proof.
  intros HG Hsize.
  assert (1 ≤ G ^ Z.of_nat k) as Hpow.
  { pose proof (Z.pow_le_mono_l 1 G (Z.of_nat k) ltac:(lia)) as Hle.
    rewrite Z.pow_1_l in Hle by lia. exact Hle. }
  replace (Z.of_nat (S k)) with (Z.succ (Z.of_nat k)) by lia.
  rewrite Z.pow_succ_r by lia. nia.
Qed.

(** X15. Growth is geometric up to the cap. For [GrowthFactor >= 1] and
    [GrowthFactor * MaxBlockSize < 2^64], where the product of line 128
    does not wrap: on a pool built with initial size [size], when the
    upstream allocator provides every block, the [j]-th block obtained
    after the first one (counting from 0, over any run of calls) has
    [min(GrowthFactor^(j+1) * size, MaxBlockSize)] items. *)
Theorem block_sizes_geometric {T : Type} (G M : Z) (up : Z → bool) (size : Z)
    (p0 : Pool T) (os : list (op T)) (j s : nat) :
  1 ≤ G → G * M < SizeT.modulus →
  Pool_new M up size = Ret p0 →
  Forall upstream_provides os →
  allocated G M os p0 !! j = Some s →
  s = Z.to_nat (Z.min (G ^ Z.of_nat (S j) * size) M).
Proof.
  intros HG HGM [Hsize ->]%Pool_new_inv Hos.
  set (p := mkPool (T:=T) [fresh_block 0 size] size (Some (0%nat, 0%nat))).
  assert (m_blockSize p = Z.min (G ^ Z.of_nat 0 * size) M) as Hbs by (simpl; lia).
  assert (1 ≤ m_blockSize p ≤ M) as Hb by (simpl; lia).
  change (S j) with (S (0 + j)).
  generalize dependent p. generalize 0%nat as k. revert j.
  induction os as [|o os IH]; intros j k p Hbs Hb; [done|].
  apply Forall_cons in Hos as [Ho Hos]. cbn [allocated].
  assert (length (m_blocks p) = length (block_sizes p)) as Hlen
    by (unfold block_sizes; by rewrite length_fmap).
  destruct (step_sizes G M HG HGM o p Hb) as (Hb' & _ & _ & _). cbv zeta in Hb'.
  assert ((drop (length (m_blocks p)) (block_sizes (step G M o p)) = [] ∧
           m_blockSize (step G M o p) = m_blockSize p) ∨
          (drop (length (m_blocks p)) (block_sizes (step G M o p)) =
             [Z.to_nat (grown_size G M p)] ∧
           m_blockSize (step G M o p) = grown_size G M p)) as [[-> Hs]|[-> Hs]].
  { destruct o as [up' ctor|q|]; cbn [step].
    - destruct (construct G M up' ctor p) as [r p'] eqn:Hrun; simpl.
      apply construct_blocks in Hrun as [Hbl Hs]. simpl in Ho.
      rewrite Hbl, Hs, (Ho (grown_size G M p)), andb_true_r, drop_app_length' by done.
      destruct (full p); eauto.
    - destruct (destroy q p) as [r p'] eqn:Hrun; simpl.
      apply destroy_blocks in Hrun as [Hbl Hs].
      rewrite Hbl, Hs, Hlen, drop_all. eauto.
    - left. unfold block_sizes at 1; simpl. by rewrite drop_nil. }
  - simpl. apply (IH Hos j k (step G M o p)); [rewrite Hs; exact Hbs|exact Hb'].
  - assert (grown_size G M p = Z.min (G ^ Z.of_nat (S k) * size) M) as Hgs.
    { rewrite grown_size_eq, Hbs by done. apply grown_power; lia. }
    destruct j as [|j]; simpl.
    + intros [= <-]. rewrite Hgs. by rewrite Nat.add_0_r.
    + intros Hj. replace (S (k + S j)) with (S (S k + j)) by lia.
      apply (IH Hos j (S k) (step G M o p)); [rewrite Hs; exact Hgs|exact Hb'|exact Hj].
Qed.

(** * The further properties at concrete pools *)

Lemma pool8_three_FreeList : FreeList pool8_three (pair 0%nat <$> seq 3 5).
Proof. eval_FreeList. Defined.

(** X1 at [Pool<nat>(8)]. *)
Lemma construct_stores_object_witness :
  let p' := (construct 2 1024 never (Some 5%nat) pool8).2 in
  FreeList pool8 (pair 0%nat <$> seq 0 8) ∧
  construct 2 1024 never (Some 5%nat) pool8 = (Ret (0%nat, 0%nat), p') ∧
  cell (m_blocks p') (0%nat, 0%nat) = Some (Storage 5%nat) ∧
  FreeList p' (pair 0%nat <$> seq 1 7) ∧
  ¬ live pool8 (0%nat, 0%nat).
Proof.
  intros p'.
  assert (construct 2 1024 never (Some 5%nat) pool8 = (Ret (0%nat, 0%nat), p'))
    as Hrun by reflexivity.
  split; [exact pool8_FreeList|]. split; [exact Hrun|].
  destruct (construct_stores_object 2 1024 never (Some 5%nat) pool8 p' _ _
              pool8_FreeList Hrun)
    as (v & Hv & Hc & Hfrom & Hfresh & _).
  injection Hv as <-. split; [exact Hc|]. split; [|exact Hfresh].
  destruct Hfrom as [(fl' & Heq & Hfl')|[Heq _]]; [|discriminate Heq].
  injection Heq as <-. exact Hfl'.
Defined.

(** X2 at [Pool<nat>(8)] holding three objects: the second one stays put
    over ten constructs, which grow the pool, and the destroy of the first. *)
Lemma objects_never_move_witness :
  let os := replicate 10 (Construct always (Some 0%nat)) ++
            [Destroy (Some (0%nat, 0%nat))] in
  1 ≤ 2 ∧ 2 * 1024 < SizeT.modulus ∧
  pool_inv 1024 pool8_three ∧
  destroys_live 2 1024 os pool8_three ∧
  cell (m_blocks pool8_three) (0%nat, 1%nat) = Some (Storage 11%nat) ∧
  Forall (λ o, o ≠ Release ∧ o ≠ Destroy (Some (0%nat, 1%nat))) os ∧
  cell (m_blocks (run 2 1024 os pool8_three)) (0%nat, 1%nat) = Some (Storage 11%nat).
Proof.
  intros os.
  assert (Forall (λ o : op nat, o ≠ Release ∧ o ≠ Destroy (Some (0%nat, 1%nat))) os)
    as Hos.
  { repeat first [apply Forall_nil_2 | apply Forall_cons_2; [split; discriminate|]]. }
  assert (pool_inv 1024 pool8_three) as Hinv.
  { split; [vm_compute; split; discriminate|].
    eexists. exact pool8_three_FreeList. }
  assert (destroys_live 2 1024 os pool8_three) as Hdl.
  { repeat (split; [exact I|]). split; [|exact I]. by exists 10%nat. }
  split; [lia|]. split; [reflexivity|]. split; [exact Hinv|]. split; [exact Hdl|].
  split; [reflexivity|]. split; [exact Hos|].
  exact (proj1 (objects_never_move 2 1024 os pool8_three (0%nat, 1%nat) 11%nat
                  ltac:(lia) eq_refl Hinv Hdl eq_refl Hos)).
Defined.

(** X3 at [Pool<nat>(8)] holding three objects. *)
Lemma destroy_returns_slot_witness :
  live pool8_three (0%nat, 1%nat) ∧
  FreeList pool8_three (pair 0%nat <$> seq 3 5) ∧
  ∃ p', destroy (Some (0%nat, 1%nat)) pool8_three = (Ret tt, p') ∧
        has_free_count p' 6 ∧ (live_count p' + 1 = live_count pool8_three)%nat.
Proof.
  assert (live pool8_three (0%nat, 1%nat)) as Hlive by (by exists 11%nat).
  split; [exact Hlive|]. split; [exact pool8_three_FreeList|].
  destruct (destroy_returns_slot pool8_three (0%nat, 1%nat) _ Hlive pool8_three_FreeList)
    as (p' & Hrun & _ & _ & Hc & Hl & _).
  exists p'. split; [exact Hrun|]. split; [exact Hc|exact Hl].
Defined.

(** X4 at [Pool<nat>(8)]. *)
Lemma construct_then_destroy_restores_witness :
  FreeList pool8 ((0%nat, 0%nat) :: (pair 0%nat <$> seq 1 7)) ∧
  ∃ p1, construct 2 1024 never (Some 5%nat) pool8 = (Ret (0%nat, 0%nat), p1) ∧
        destroy (Some (0%nat, 0%nat)) p1 = (Ret tt, pool8).
Proof.
  split; [exact pool8_FreeList|].
  destruct (construct_then_destroy_restores 2 1024 never 5%nat pool8
              (0%nat, 0%nat) _ pool8_FreeList)
    as (p1 & Hc & _ & Hd).
  exists p1. split; assumption.
Defined.

(** X5 at [Pool<nat>(8)] holding three objects. *)
Lemma free_count_within_capacity_witness :
  FreeList pool8_three (pair 0%nat <$> seq 3 5) ∧
  (5 + live_count pool8_three ≤ total_slots pool8_three)%nat ∧
  freeCount 8 pool8_three = Some 5%nat.
Proof.
  split; [exact pool8_three_FreeList|].
  exact (free_count_within_capacity pool8_three _ pool8_three_FreeList).
Defined.

(** X6 at [Pool<nat>(8)] holding three objects: the first and the third
    are destroyed, and come back third first. *)
Lemma destroy_all_then_construct_all_witness :
  let hs := [(0%nat, 0%nat); (0%nat, 2%nat)] in
  NoDup hs ∧ Forall (live pool8_three) hs ∧
  FreeList pool8_three (pair 0%nat <$> seq 3 5) ∧
  ∃ p1 p2,
    destroy_all hs pool8_three = (Ret tt, p1) ∧
    construct_all 2 1024 never [1; 2]%nat p1 =
      (Ret [(0%nat, 2%nat); (0%nat, 0%nat)], p2) ∧
    FreeList p2 (pair 0%nat <$> seq 3 5).
Proof.
  intros hs.
  assert (NoDup hs) as Hnd by (apply (bool_decide_unpack _); vm_compute; exact I).
  assert (Forall (live pool8_three) hs) as Hlive.
  { apply Forall_cons_2; [by exists 10%nat|].
    apply Forall_cons_2; [by exists 12%nat|]. apply Forall_nil_2. }
  split; [exact Hnd|]. split; [exact Hlive|]. split; [exact pool8_three_FreeList|].
  destruct (destroy_all_then_construct_all 2 1024 never hs [1; 2]%nat pool8_three _
              Hnd Hlive pool8_three_FreeList eq_refl)
    as (p1 & p2 & Hd & Hc & Hfl & _).
  exists p1, p2. split; [exact Hd|]. split; [exact Hc|exact Hfl].
Defined.

(** X7 at [Pool<nat>(8)], the upstream allocator refusing everything. *)
Lemma fresh_pool_serves_in_order_witness :
  Pool_new 1024 always 8 = Ret pool8 ∧
  length (seq 0 8) = Z.to_nat 8 ∧
  ∃ p', construct_all 2 1024 never (seq 0 8) pool8 =
          (Ret (pair 0%nat <$> seq 0 8), p') ∧
        full p' = true ∧ block_sizes p' = [8%nat].
Proof.
  split; [reflexivity|]. split; [reflexivity|].
  destruct (fresh_pool_serves_in_order 2 1024 always never 8 (seq 0 8) pool8
              eq_refl eq_refl) as (p' & Hall & Hfull & Hb & _).
  exists p'. split; [exact Hall|]. split; [exact Hfull|exact Hb].
Defined.

(** X8 at a pool with maximum block size 8 that has reached it. *)
Lemma block_size_cap_absorbing_witness :
  let os := replicate 20 (Construct always (Some 0%nat)) in
  1 ≤ 2 ∧ 2 * 8 < SizeT.modulus ∧ 1 ≤ 8 ∧ m_blockSize pool8 = 8 ∧
  m_blockSize (run 2 8 os pool8) = 8 ∧
  allocated 2 8 os pool8 = [8; 8]%nat ∧
  Forall (λ s, s = 8%nat) (allocated 2 8 os pool8).
Proof.
  intros os.
  split; [lia|]. split; [reflexivity|]. split; [lia|]. split; [reflexivity|].
  destruct (block_size_cap_absorbing 2 8 os pool8 ltac:(lia) eq_refl ltac:(lia) eq_refl)
    as [Hs Hall].
  split; [exact Hs|]. split; [reflexivity|exact Hall].
Defined.

(** X9 at [Pool<nat>(8)] and a run with growth, destroys, a block the
    upstream allocator refuses, and a release. *)
Lemma no_slot_lost_witness :
  let os := replicate 9 (Construct always (Some 0%nat)) ++
            [Destroy (Some (0%nat, 3%nat)); Destroy None;
             Destroy (Some (1%nat, 0%nat));
             Construct never (Some 2%nat); Construct never (Some 3%nat);
             Construct never (Some 4%nat); Release;
             Construct always (Some 1%nat)] in
  1 ≤ 2 ∧ 2 * 1024 < SizeT.modulus ∧
  Pool_new 1024 always 8 = Ret pool8 ∧
  Forall ctor_returns os ∧
  destroys_live 2 1024 os pool8 ∧
  balanced (run 2 1024 os pool8) ∧
  has_free_count (run 2 1024 os pool8)
    (total_slots (run 2 1024 os pool8) - live_count (run 2 1024 os pool8)).
Proof.
  intros os.
  assert (Forall ctor_returns os) as Hct.
  { repeat first [apply Forall_nil_2
                 | apply Forall_cons_2; [first [exact I | by eexists]|]]. }
  assert (destroys_live 2 1024 os pool8) as Hdl.
  { do 9 (split; [exact I|]).
    split; [by exists 0%nat|]. split; [exact I|]. split; [by exists 0%nat|].
    repeat (split; [exact I|]). exact I. }
  split; [lia|]. split; [reflexivity|]. split; [reflexivity|].
  split; [exact Hct|]. split; [exact Hdl|].
  destruct (no_slot_lost 2 1024 always 8 pool8 os ltac:(lia) eq_refl eq_refl Hct Hdl)
    as (Hbal & _ & Hc).
  split; [exact Hbal|exact Hc].
Defined.

(** X10 for twenty iterations. *)
Lemma MassAllocPool_completes_witness :
  (∀ k, always k = true) ∧
  ∃ p, TestPool.MassAllocPool always 20 0%nat = Ret p ∧
       (20 ≤ total_slots p)%nat ∧ live_count p = 0%nat ∧
       has_free_count p (total_slots p).
Proof.
  split; [intros k; reflexivity|].
  exact (MassAllocPool_completes always 20 0%nat (λ _, eq_refl)).
Defined.

(** X13 at initial size 8, all four types holding [nat] objects. *)
Lemma DataMultipool_new_contract_witness :
  0 ≤ 8 ∧
  ∃ mp, TestPool.DataMultipool_new (λ _, nat) always 8 = Ret mp ∧
        ∀ t, block_sizes (Multipool.get (λ _, nat) t mp) = [8%nat] ∧
             has_free_count (Multipool.get (λ _, nat) t mp) 8.
Proof.
  split; [lia|].
  destruct (DataMultipool_new_contract (λ _, nat) always 8 ltac:(lia)) as [_ Hok].
  destruct (Hok ltac:(lia) eq_refl) as (mp & Hnew & Hall).
  exists mp. split; [exact Hnew|]. intros t.
  destruct (Hall t) as (_ & Hb & Hc & _). split; [exact Hb|exact Hc].
Defined.

Lemma pool8_balanced : balanced pool8.
Proof.
  exists (pair 0%nat <$> seq 0 8). split; [exact pool8_FreeList|reflexivity].
Defined.

Lemma pool8_no_object a : ¬ live pool8 a.
Proof. exact (proj2 (proj2 (Pool_new_state (T:=nat) 8 ltac:(lia))) a). Defined.

(** X14 on four pools of initial size 8 and twelve values. *)
Lemma MixedPoolAlloc_completes_witness :
  let mp : Multipool.t (λ _ : TestPool.ty, nat) := λ _, pool8 in
  let vals := [0; 1; 2; 3; 0; 0; 4; 1; 7; -1; 2; 0] in
  (∀ k, always k = true) ∧
  (∀ t, 1 ≤ m_blockSize (mp t) ≤ 1024 ∧ balanced (mp t) ∧ ∀ a, ¬ live (mp t) a) ∧
  ∃ mp', TestPool.MixedPoolAlloc (λ _, nat) (λ _, 0%nat) always vals mp = Ret mp' ∧
         ∀ t, live_count (mp' t) = 0%nat ∧
              has_free_count (mp' t) (total_slots (mp' t)).
Proof.
  intros mp vals.
  assert (∀ t, 1 ≤ m_blockSize (mp t) ≤ 1024 ∧ balanced (mp t) ∧
               ∀ a, ¬ live (mp t) a) as Hmp.
  { intros t. split; [simpl; lia|]. split; [exact pool8_balanced|exact pool8_no_object]. }
  split; [intros k; reflexivity|]. split; [exact Hmp|].
  destruct (MixedPoolAlloc_completes (λ _, nat) (λ _, 0%nat) always vals mp
              (λ _, eq_refl) Hmp) as (mp' & Hrun & Hall & _).
  exists mp'. split; [exact Hrun|]. intros t.
  destruct (Hall t) as (_ & H0 & Hc & _). split; [exact H0|exact Hc].
Defined.

(** X15 at [Pool<nat>(8)]: the third block obtained after the first has
    [min(2^3 * 8, 1024) = 64] items. *)
Lemma block_sizes_geometric_witness :
  let os := replicate 200 (Construct always (Some 0%nat)) in
  1 ≤ 2 ∧ 2 * 1024 < SizeT.modulus ∧
  Pool_new 1024 always 8 = Ret pool8 ∧
  Forall upstream_provides os ∧
  allocated 2 1024 os pool8 !! 2%nat = Some 64%nat ∧
  64%nat = Z.to_nat (Z.min (2 ^ Z.of_nat 3 * 8) 1024).
Proof.
  intros os.
  assert (Forall upstream_provides os) as Hos.
  { apply Forall_replicate. intros n. reflexivity. }
  assert (allocated 2 1024 os pool8 !! 2%nat = Some 64%nat) as Hj
    by (vm_compute; reflexivity).
  split; [lia|]. split; [reflexivity|]. split; [reflexivity|]. split; [exact Hos|].
  split; [exact Hj|].
  exact (block_sizes_geometric 2 1024 always 8 pool8 os 2 64
           ltac:(lia) eq_refl eq_refl Hos Hj).
Defined.
